(** * punchcard: the Enumerable stage chain and the DynamoDB client

    A shallow embedding of two source files of the repository:

    - the abstract class [Enumerable] (lazy chains of stream transformations:
      [map], [flatMap], [batched], [run]);
    - the class [DynamoDBClient] (key marshalling, [batchGet], [batchPut],
      [scan], [query]).

    Asynchronous iterators are modelled by the finite list of the values they
    yield, promises by their outcome, JavaScript objects by finite maps with
    string keys, and JavaScript arrays whose identity the code tests with
    [===] by references into an explicit store of arrays. *)

From stdpp Require Import gmap strings list fin_maps pretty.

#[local] Set Warnings "-register-all".
#[local] Open Scope Z_scope.

(* ===================================================================== *)
(** * Part I: the program                                                 *)
(* ===================================================================== *)

(** ** The stage chain ([Enumerable]) *)

Module Enumerable.

(** Arrays of dependencies are compared by identity in [run], so a stage
    holds a reference to its array and the arrays live in a store. *)
Definition loc := positive.

Section Stages.
(** [E]: the event that triggers the computation; [Dependency]: a declared
    need for a runtime capability; [Client]: the capability itself. *)
Context {E Dependency Client : Type}.

(** The store of dependency arrays. *)
Abbreviation Store := (gmap loc (list Dependency)).

(** Computations that may allocate arrays; the source allocates one exactly
    where it evaluates [[input.depends].concat(this.dependencies)]. *)
Definition Alloc (A : Type) : Type := Store → A * Store.

Definition ret {A} (a : A) : Alloc A := λ σ, (a, σ).

Definition bind {A B} (m : Alloc A) (k : A → Alloc B) : Alloc B :=
  λ σ, let '(a, σ') := m σ in k a σ'.

(** A new array object: its reference is one no array of the store has. *)
Definition new_array (elems : list Dependency) : Alloc loc :=
  λ σ, let l := fresh (dom σ) in (l, <[l := elems]> σ).

(** The elements of an array. *)
Definition read_array (l : loc) : Alloc (list Dependency) :=
  λ σ, (σ !!! l, σ).

(** The client list a function unit passes to [run]: an array of clients,
    or [undefined] ([None]); the source tests it with [deps ? … : …]. *)
Definition Clients : Type := option (list Client).

(** [deps ? (deps as any[])[0] : undefined] *)
Definition first_client (deps : Clients) : option Client :=
  match deps with
  | Some cs => cs !! 0%nat
  | None => None
  end.

(** [deps ? deps.slice(1) : []] *)
Definition rest_clients (deps : Clients) : Clients :=
  match deps with
  | Some cs => Some (drop 1 cs)
  | None => Some []
  end.

(** A stage is built by the constructor
    [constructor(previous, f, dependencies)].  The class is abstract: the
    head of a chain is an object of a concrete subclass that supplies its own
    [run]; [Root] stands for such an object, given by the function its [run]
    computes and by its [dependencies] field. *)
Inductive Enumerable : Type → Type :=
  | Root {T} (produce : E → Clients → list T) (dependencies : loc) :
      Enumerable T
  | Stage {T U} (previous : Enumerable T)
      (f : list T → option Client → list U) (dependencies : loc) :
      Enumerable U.

Definition dependencies {T} (s : Enumerable T) : loc :=
  match s with
  | Root _ d => d
  | Stage _ _ d => d
  end.

(** [run(event, deps)] *)
Fixpoint run {T} (this : Enumerable T) (event : E) (deps : Clients) : list T :=
  match this with
  | Root produce _ => produce event deps
  | Stage previous f d =>
      if decide (d = dependencies previous)
      then f (run previous event deps) (first_client deps)
      else f (run previous event (rest_clients deps)) (first_client deps)
  end.

(** One call of [run]: the stage it is called on and the clients it gets. *)
Definition Invocation : Type := {T : Type & Enumerable T} * Clients.

Definition invoked {T} (s : Enumerable T) (deps : Clients) : Invocation :=
  (existT T s, deps).

(** [run] again, also recording every call of [run] it makes, outermost
    first.  (The calls are made when [run] is called, before any value is
    drawn from the iterator.) *)
Fixpoint run_logged {T} (this : Enumerable T) (event : E) (deps : Clients)
    : list Invocation * list T :=
  match this with
  | Root produce d => ([invoked (Root produce d) deps], produce event deps)
  | Stage previous f d =>
      if decide (d = dependencies previous)
      then
        let '(log, values) := run_logged previous event deps in
        (invoked (Stage previous f d) deps :: log,
         f values (first_client deps))
      else
        let '(log, values) := run_logged previous event (rest_clients deps) in
        (invoked (Stage previous f d) deps :: log,
         f values (first_client deps))
  end.

(** Modelled from the spec: [chain] is abstract in the source and the
    subclasses that implement it are missing.  The spec has each [chain] call
    wrap its receiver as the predecessor of a new stage with the given handler
    and dependency list, which is what the constructor of the class takes. *)
Definition chain {T U} (this : Enumerable T) (depends : loc)
    (handle : list T → option Client → list U) : Enumerable U :=
  Stage this handle depends.

(** [flatMap({depends, handle})]: the generator draws every value of the
    upstream and yields, in order, each element of the handler's result. *)
Definition flatMap {T U} (this : Enumerable T) (depends : option Dependency)
    (handle : T → option Client → list U) : Alloc (Enumerable U) :=
  bind
    (match depends with
     | None => ret (dependencies this)
     | Some d =>
         bind (read_array (dependencies this)) (λ ds, new_array ([d] ++ ds))
     end)
    (λ deps,
      ret (chain this deps
             (λ values clients,
                concat (List.map (λ value, handle value clients) values)))).

(** [map({depends, handle})] *)
Definition map {T U} (this : Enumerable T) (depends : option Dependency)
    (handle : T → option Client → U) : Alloc (Enumerable U) :=
  flatMap this depends (λ v c, [handle v c]).

(** The body of the generator of [batched]: [batch] is the buffer, [it] what
    is left of the upstream.  [size] is a JavaScript number or [undefined];
    [size && batch.length === size] holds for no [undefined] or zero [size].
    (A number that is no integer equals no length, like a negative one.) *)
Fixpoint batched_handle {T} (size : option Z) (batch : list T) (it : list T)
    : list (list T) :=
  match it with
  | [] => if decide (0 < length batch)%nat then [batch] else []
  | value :: it' =>
      let batch := batch ++ [value] in
      match size with
      | Some n =>
          if decide (n ≠ 0 ∧ Z.of_nat (length batch) = n)
          then batch :: batched_handle size [] it'
          else batched_handle size batch it'
      | None => batched_handle size batch it'
      end
  end.

(** [batched(size?)] *)
Definition batched {T} (this : Enumerable T) (size : option Z)
    : Enumerable (list T) :=
  chain this (dependencies this) (λ it _, batched_handle size [] it).

End Stages.

Arguments Enumerable : clear implicits.
Arguments Alloc : clear implicits.
Arguments Clients : clear implicits.
Arguments Invocation : clear implicits.

End Enumerable.

(** ** JavaScript values *)

Module JS.

(** The values the client handles at run time: key values, records, and the
    store's attribute values ([{S: "a"}] is an object with one property). *)
Inductive Value : Type :=
  | VUndefined
  | VBool (b : bool)
  | VNum (n : Z)
  | VStr (s : string)
  | VArr (elems : list Value)
  | VObj (props : gmap string Value).

#[global] Instance Value_inhabited : Inhabited Value := populate VUndefined.

#[global] Instance Value_eq_dec : EqDecision Value.
Proof.
  refine (fix go (v1 v2 : Value) {struct v1} : Decision (v1 = v2) :=
    let _ : EqDecision Value := @go in
    match v1, v2 with
    | VUndefined, VUndefined => left _
    | VBool a, VBool b => cast_if (decide (a = b))
    | VNum a, VNum b => cast_if (decide (a = b))
    | VStr a, VStr b => cast_if (decide (a = b))
    | VArr a, VArr b => cast_if (decide (a = b))
    | VObj a, VObj b => cast_if (decide (a = b))
    | _, _ => right _
    end); congruence.
Defined.

(** An object, and the value of [o[k]] for an object [o]. *)
Abbreviation Object := (gmap string Value).

Definition prop (o : Object) (k : string) : Value :=
  default VUndefined (o !! k).

(** [v[k]] for a value [v] that the code takes for an object.  (On
    [undefined] JavaScript throws a [TypeError]; the embedding yields
    [undefined] there, also for [v[i]] below.) *)
Definition get (v : Value) (k : string) : Value :=
  match v with
  | VObj o => prop o k
  | _ => VUndefined
  end.

(** [v[i]] for a value [v] that the code takes for an array: the element of
    an array, the property named by the numeral of an object, the character
    of a string. *)
Definition index (v : Value) (i : nat) : Value :=
  match v with
  | VArr l => default VUndefined (l !! i)
  | VObj o => prop o (pretty i)
  | VStr s =>
      match String.get i s with
      | Some c => VStr (String c EmptyString)
      | None => VUndefined
      end
  | _ => VUndefined
  end.

(** An error that is thrown, or the reason a promise is rejected with. *)
Inductive Error : Type :=
  | GenericError (message : string)
  | TypeError (message : string)
  | ServiceError (code : string).

(** How an [async] function ends. *)
Inductive Outcome (A : Type) : Type :=
  | Resolved (a : A)
  | Rejected (e : Error).

Arguments Resolved {A} a.
Arguments Rejected {A} e.

Definition await {A B} (p : Outcome A) (k : A → Outcome B) : Outcome B :=
  match p with
  | Resolved a => k a
  | Rejected e => Rejected e
  end.

End JS.


(** ** The DynamoDB client *)

Module DynamoDB.
Import JS.

(** The codec of a shape ([Mapper.of(shape)]), an external collaborator. *)
Record Mapper : Type := {
  write : Value → Value;
  read : Value → Value
}.

(** *** The store's requests and responses (aws-sdk) *)

Module AWS.

Record KeysAndAttributes : Type := { Keys : list Value }.

Record BatchGetItemInput : Type := {
  BatchGetItem_RequestItems : gmap string KeysAndAttributes
}.

(** [Responses] maps a table name to the list of the items found, each an
    attribute map. *)
Record BatchGetItemOutput : Type := {
  Responses : option (gmap string (list Object))
}.

Record PutRequest : Type := { Item : Value }.

Record WriteRequest : Type := { PutRequest_ : PutRequest }.

Record BatchWriteItemInput : Type := {
  BatchWriteItem_RequestItems : gmap string (list WriteRequest)
}.

Record BatchWriteItemOutput : Type := {
  UnprocessedItems : option (gmap string (list WriteRequest))
}.

Record ScanInput : Type := { Scan_TableName : string }.

Record ScanOutput : Type := { Scan_Items : option (list Object) }.

Record QueryInput : Type := {
  TableName : string;
  KeyConditionExpression : string;
  FilterExpression : option string;
  ExpressionAttributeNames : gmap string string;
  ExpressionAttributeValues : gmap string Value;
  ExclusiveStartKey : option Value
}.

Record QueryOutput : Type := {
  Items : option (list Object);
  LastEvaluatedKey : option Value
}.

(** The client [AWS.DynamoDB]: each operation answers a request with the
    outcome of the promise it returns. *)
Record DynamoDB : Type := {
  batchGetItem : BatchGetItemInput → Outcome BatchGetItemOutput;
  batchWriteItem : BatchWriteItemInput → Outcome BatchWriteItemOutput;
  scan : ScanInput → Outcome ScanOutput;
  query : QueryInput → Outcome QueryOutput
}.

End AWS.

(** *** The expression writer and its namespace *)

Definition loc := positive.

(** Modelled from the spec: the class [Writer.Namespace] is missing from the
    sources.  The spec has it hold the counter state that generates the
    unique name tokens [#n0, #n1, …] and value tokens [:v0, :v1, …]. *)
Record Namespace : Type := {
  nameId : nat;
  valueId : nat
}.

#[global] Instance Namespace_inhabited : Inhabited Namespace :=
  populate {| nameId := 0; valueId := 0 |}.

(** A namespace is an object that several writers may hold: the namespaces
    live in a store, and a writer holds a reference. *)
Abbreviation Heap := (gmap loc Namespace).

Definition Comp (A : Type) : Type := Heap → A * Heap.

Definition ret {A} (a : A) : Comp A := λ σ, (a, σ).

Definition bind {A B} (m : Comp A) (k : A → Comp B) : Comp B :=
  λ σ, let '(a, σ') := m σ in k a σ'.

(** Modelled from the spec: [new Writer.Namespace()], a new namespace whose
    first tokens are [#n0] and [:v0]. *)
Definition new_Namespace : Comp loc :=
  λ σ, let l := fresh (dom σ) in (l, <[l := {| nameId := 0; valueId := 0 |}]> σ).

(** Modelled from the spec: the tokens [#n0, #n1, …] and [:v0, :v1, …]. *)
Definition name_token (i : nat) : string := "#n" +:+ pretty i.

Definition value_token (i : nat) : string := ":v" +:+ pretty i.

(** Modelled from the spec: the next name token of the namespace at [ns],
    and the next value token; no token is given twice. *)
Definition newName (ns : loc) : Comp string :=
  λ σ, let n := σ !!! ns in
       (name_token (nameId n),
        <[ns := {| nameId := S (nameId n); valueId := valueId n |}]> σ).

Definition newValue (ns : loc) : Comp string :=
  λ σ, let n := σ !!! ns in
       (value_token (valueId n),
        <[ns := {| nameId := nameId n; valueId := S (valueId n) |}]> σ).

(** The wire format of a compiled expression. *)
Record Expression : Type := {
  Expression_ : string;
  Expression_AttributeNames : gmap string string;
  Expression_AttributeValues : gmap string Value
}.

(** Modelled from the spec: the class [Writer] is missing from the sources.
    The spec has a writer draw its placeholders from the namespace it was
    created with, one name placeholder per distinct referenced path and one
    value placeholder per distinct literal, and emit an expression string, a
    map from name placeholders to field names and a map from value
    placeholders to wire values. *)
Record Writer : Type := {
  namespace : loc;
  tokens : list string;
  names : list (string * string);
  values : list (string * Value)
}.

(** Modelled from the spec: [new Writer(namespace)], a writer that has
    written nothing and holds the namespace it is given. *)
Definition new_Writer (ns : loc) : Writer :=
  {| namespace := ns; tokens := []; names := []; values := [] |}.

(** Modelled from the spec: a fragment of the expression string. *)
Definition writeToken (w : Writer) (t : string) : Writer :=
  {| namespace := namespace w; tokens := tokens w ++ [t];
     names := names w; values := values w |}.

(** The placeholder this writer already gave to a field name or a literal. *)
Definition placeholder_of {A} `{EqDecision A} (x : A) (l : list (string * A))
    : option string :=
  fst <$> List.find (λ p, bool_decide (p.2 = x)) l.

(** Modelled from the spec: a reference to a field, by the placeholder the
    writer gave to the field or, for a field it has not met, by a new one
    from the namespace; and the same for a literal. *)
Definition writeName (w : Writer) (field : string) : Comp Writer :=
  match placeholder_of field (names w) with
  | Some ph => ret (writeToken w ph)
  | None =>
      bind (newName (namespace w)) (λ ph,
        ret {| namespace := namespace w; tokens := tokens w ++ [ph];
               names := names w ++ [(ph, field)]; values := values w |})
  end.

Definition writeValue (w : Writer) (v : Value) : Comp Writer :=
  match placeholder_of v (values w) with
  | Some ph => ret (writeToken w ph)
  | None =>
      bind (newValue (namespace w)) (λ ph,
        ret {| namespace := namespace w; tokens := tokens w ++ [ph];
               names := names w; values := values w ++ [(ph, v)] |})
  end.

(** Modelled from the spec: [writer.toExpression()], the expression string
    and the two placeholder maps. *)
Definition toExpression (w : Writer) : Expression :=
  {| Expression_ := String.concat "" (tokens w);
     Expression_AttributeNames := list_to_map (names w);
     Expression_AttributeValues := list_to_map (values w) |}.

(** Modelled from the spec: the module [DSL] is missing from the sources.
    The spec has the nodes of a condition be comparisons of a path with a
    value, the combinators and, or, not, and function calls; a combinator
    wraps the fragments of its operands in parentheses.  ([DSL.Bool]) *)
Inductive Node : Type :=
  | Comparison (path operator : string) (value : Value)
  | And (l r : Node)
  | Or (l r : Node)
  | Not (b : Node)
  | FunctionCall (name path : string) (args : list Value).

(** Modelled from the spec: [dsl[field].equals(value)] and [l.and(r)], of the
    missing module [DSL].  The spec restricts expressions to the fields of
    the shape, so the accessor [dsl[field]] is taken to exist for the name of
    the hash key. *)
Definition equals (field : string) (value : Value) : Node :=
  Comparison field "=" value.

Definition and_ (l r : Node) : Node := And l r.

(** Modelled from the spec: the arguments of a function call after its path,
    each a literal that gets a value placeholder. *)
Fixpoint writeArgs (args : list Value) (w : Writer) : Comp Writer :=
  match args with
  | [] => ret w
  | v :: args' =>
      bind (writeValue (writeToken w ", ") v) (writeArgs args')
  end.

(** Modelled from the spec: [node[DSL.Synthesize](writer)], the one walk of
    the tree that compiles it; a combinator wraps the fragments of its
    operands in parentheses. *)
Fixpoint synthesize (node : Node) (w : Writer) : Comp Writer :=
  match node with
  | Comparison path operator value =>
      bind (writeName w path) (λ w,
        writeValue (writeToken w (" " +:+ operator +:+ " ")) value)
  | And l r =>
      bind (synthesize l (writeToken w "(")) (λ w,
      bind (synthesize r (writeToken w ") AND (")) (λ w,
        ret (writeToken w ")")))
  | Or l r =>
      bind (synthesize l (writeToken w "(")) (λ w,
      bind (synthesize r (writeToken w ") OR (")) (λ w,
        ret (writeToken w ")")))
  | Not b =>
      bind (synthesize b (writeToken w "NOT (")) (λ w,
        ret (writeToken w ")"))
  | FunctionCall name path args =>
      bind (writeName (writeToken w (name +:+ "(")) path) (λ w,
      bind (writeArgs args w) (λ w,
        ret (writeToken w ")")))
  end.

(** Modelled from the spec: [writer.writeNode(node)] compiles the node with
    this writer. *)
Definition writeNode (w : Writer) (node : Node) : Comp Writer :=
  synthesize node w.

(** *** The client *)

(** [DynamoDBClient.Key]: the name of the hash key, or the pair of the names
    of the hash key and of the sort key. *)
Inductive Key : Type :=
  | HashKey (key : string)
  | SortKey (hk sk : string).

(** What the constructor takes from the record type: the codec of the type
    of each member ([Mapper.of(shape.Members[name].Type)]) and the codec of
    the record ([Mapper.of(type)]). *)
Record ClassType : Type := {
  Members_mapper : string → Mapper;
  type_mapper : Mapper
}.

Record Props : Type := {
  Props_tableName : string;
  Props_client : AWS.DynamoDB
}.

(** The fields of the class.  A field that was never assigned reads as
    [undefined] ([None]). *)
Record DynamoDBClient : Type := {
  client : AWS.DynamoDB;
  tableName : string;
  mapper : Mapper;
  hashKeyName : option string;
  sortKeyName : option string;
  hashKeyMapper : option Mapper;
  sortKeyMapper : option Mapper;
  writeKey : Value → Value;
  readKey : Value → Value
}.

(** [constructor(type, key, config)].  The object literal
    [{[hk]: a, [sk]: b}] defines its properties in order. *)
Definition constructor (type : ClassType) (key : Key) (config : Props)
    : DynamoDBClient :=
  {| client := Props_client config;
     tableName := Props_tableName config;
     mapper := type_mapper type;
     hashKeyName := None;
     sortKeyName := None;
     hashKeyMapper := None;
     sortKeyMapper := None;
     writeKey :=
       match key with
       | HashKey key =>
           let hashKeyMapper := Members_mapper type key in
           λ k, VObj {[ key := write hashKeyMapper k ]}
       | SortKey hk sk =>
           let hashKeyMapper := Members_mapper type hk in
           let sortKeyMapper := Members_mapper type sk in
           λ k, VObj (<[ sk := write sortKeyMapper (index k 1) ]>
                        {[ hk := write hashKeyMapper (index k 0) ]})
       end;
     readKey :=
       match key with
       | HashKey key =>
           let hashKeyMapper := Members_mapper type key in
           λ k, VObj {[ key := read hashKeyMapper (get k key) ]}
       | SortKey hk sk =>
           let hashKeyMapper := Members_mapper type hk in
           let sortKeyMapper := Members_mapper type sk in
           λ k, VObj (<[ sk := read sortKeyMapper (get k sk) ]>
                        {[ hk := read hashKeyMapper (get k hk) ]})
       end |}.

(** [{M: v}] *)
Definition M_ (v : Value) : Value := VObj {[ "M" := v ]}.

(** The request of [batchGet]. *)
Definition batchGet_input (this : DynamoDBClient) (keys : list Value)
    : AWS.BatchGetItemInput :=
  {| AWS.BatchGetItem_RequestItems :=
       {[ tableName this :=
            {| AWS.Keys := List.map (λ key, writeKey this key) keys |} ]} |}.

(** [batchGet(keys)] *)
Definition batchGet (this : DynamoDBClient) (keys : list Value)
    : Outcome (list Value) :=
  await (AWS.batchGetItem (client this) (batchGet_input this keys))
    (λ result,
       match AWS.Responses result with
       | Some responses =>
           match responses !! tableName this with
           | Some items =>
               Resolved
                 (List.map (λ item, read (mapper this) (M_ (prop item "Item")))
                    items)
           | None => Rejected (GenericError "TODO")
           end
       | None => Rejected (GenericError "TODO")
       end).

(** The request of [batchPut]. *)
Definition batchPut_input (this : DynamoDBClient) (batch : list Value)
    : AWS.BatchWriteItemInput :=
  {| AWS.BatchWriteItem_RequestItems :=
       {[ tableName this :=
            List.map
              (λ record,
                 {| AWS.PutRequest_ :=
                      {| AWS.Item := get (write (mapper this) record) "M" |} |})
              batch ]} |}.

(** [batchPut(batch)].  The result is an array of write requests, or
    [undefined] ([None]).  The [catch] block logs the error and throws it
    again. *)
Definition batchPut (this : DynamoDBClient) (batch : list Value)
    : Outcome (option (list AWS.WriteRequest)) :=
  await (AWS.batchWriteItem (client this) (batchPut_input this batch))
    (λ result,
       match AWS.UnprocessedItems result with
       | None => Resolved (Some [])
       | Some unprocessed => Resolved (unprocessed !! tableName this)
       end).

(** [scan()] *)
Definition scan (this : DynamoDBClient) : Outcome (list Value) :=
  await (AWS.scan (client this) {| AWS.Scan_TableName := tableName this |})
    (λ result,
       match AWS.Scan_Items result with
       | Some items =>
           Resolved
             (List.map (λ item, read (mapper this) (M_ (VObj item))) items)
       | None => Resolved []
       end).

(** [DynamoDBClient.QueryCondition]: the value of the hash key, or the pair
    of that value and a condition on the sort key
    ([Array.isArray(condition)]).  The type is [never] for a client with no
    sort key. *)
Inductive QueryCondition : Type :=
  | HashKeyValue (hashKeyValue : Value)
  | HashKeyAndSortKeyCondition (hashKeyValue : Value) (sortKeyCond : Node).

(** The second argument of [query]; [filter] is the condition the callback
    [props.filter] builds from the fields of the record. *)
Record QueryProps : Type := {
  exclusiveStartKey : option Value;
  filter : option Node
}.

(** Computations of [query]: they use the store of namespaces and may
    throw. *)
Definition Exec (A : Type) : Type := Heap → Outcome A * Heap.

Definition pure {A} (a : A) : Exec A := λ σ, (Resolved a, σ).

Definition throw {A} (e : Error) : Exec A := λ σ, (Rejected e, σ).

Definition lift {A} (m : Comp A) : Exec A :=
  λ σ, let '(a, σ') := m σ in (Resolved a, σ').

Definition settle {A} (p : Outcome A) : Exec A := λ σ, (p, σ).

Definition andThen {A B} (m : Exec A) (k : A → Exec B) : Exec B :=
  λ σ, match m σ with
       | (Resolved a, σ') => k a σ'
       | (Rejected e, σ') => (Rejected e, σ')
       end.


Notation "'let*' x ':=' m 'in' k" := (andThen m (λ x, k))
  (at level 10, x pattern, m at level 100, k at level 200, only parsing).

(** [this.f.m(…)] for a field [f] of the client: a [TypeError] when the field
    is [undefined]. *)
Definition member {A} (field : option A) (what : string) : Exec A :=
  match field with
  | Some a => pure a
  | None => throw (TypeError what)
  end.

(** The first part of [query]: the namespace, the two writers and what they
    compile, the filter first and then the key condition.  The result is
    [(queryExpr, filterExpr)]. *)
Definition query_compile (this : DynamoDBClient) (condition : QueryCondition)
    (props : QueryProps) : Exec (Expression * option Expression) :=
  let* namespace := lift new_Namespace in
  let queryWriter := new_Writer namespace in
  let* filterExpr :=
    match filter props with
    | Some node =>
        let filterWriter := new_Writer namespace in
        let* filterWriter := lift (synthesize node filterWriter) in
        pure (Some (toExpression filterWriter))
    | None => pure None
    end in
  let* queryWriter :=
    match condition with
    | HashKeyAndSortKeyCondition v sortKeyCond =>
        let* hashKeyMapper :=
          member (hashKeyMapper this)
            "Cannot read property 'write' of undefined" in
        let hashKeyValue := write hashKeyMapper v in
        let* hashKeyName :=
          member (hashKeyName this)
            "Cannot read property 'equals' of undefined" in
        let hashKeyCond := equals hashKeyName hashKeyValue in
        lift (writeNode queryWriter (and_ hashKeyCond sortKeyCond))
    | HashKeyValue v =>
        let* hashKeyMapper :=
          member (hashKeyMapper this)
            "Cannot read property 'write' of undefined" in
        let hashKeyValue := write hashKeyMapper v in
        let* hashKeyName :=
          member (hashKeyName this)
            "Cannot read property 'equals' of undefined" in
        let hashKeyCond := equals hashKeyName hashKeyValue in
        lift (writeNode queryWriter hashKeyCond)
    end in
  pure (toExpression queryWriter, filterExpr).

(** The request [query] submits. *)
Definition query_input (this : DynamoDBClient) (condition : QueryCondition)
    (props : QueryProps) : Exec AWS.QueryInput :=
  let* (queryExpr, filterExpr) := query_compile this condition props in
  pure {| AWS.TableName := tableName this;
          AWS.KeyConditionExpression := Expression_ queryExpr;
          AWS.FilterExpression := Expression_ <$> filterExpr;
          AWS.ExpressionAttributeNames := Expression_AttributeNames queryExpr;
          AWS.ExpressionAttributeValues := Expression_AttributeValues queryExpr;
          AWS.ExclusiveStartKey := writeKey this <$> exclusiveStartKey props |}.

(** What [query] returns: the store's answer with the items and the last
    evaluated key decoded. *)
Record QueryOutput : Type := {
  Items : option (list Value);
  LastEvaluatedKey : option Value
}.

(** [query(condition, props)] *)
Definition query (this : DynamoDBClient) (condition : QueryCondition)
    (props : QueryProps) : Exec QueryOutput :=
  let* input := query_input this condition props in
  let* result := settle (AWS.query (client this) input) in
  pure {| Items :=
            List.map (λ v, read (mapper this) (M_ (VObj v)))
              <$> AWS.Items result;
          LastEvaluatedKey := readKey this <$> AWS.LastEvaluatedKey result |}.

End DynamoDB.

(** ** The terminal operations of a stage chain *)

Module Terminal.
Import Enumerable JS.

Section Terminal.
Context {E Dependency Client : Type}.

Abbreviation Stage_ := (Enumerable E Client).
Abbreviation Store_ := (gmap loc (list Dependency)).

(** The arguments of [Dependency.list] in [forEach]: the entries of
    [this.dependencies], after [input.depends] when there is one.  They are
    the dependencies of the function that [forEach] spawns. *)
Definition forEach_depends {T} (this : Stage_ T) (depends : option Dependency)
    (σ : Store_) : list Dependency :=
  match depends with
  | None => σ !!! dependencies this
  | Some d => d :: σ !!! dependencies this
  end.

(** The handler of the function that [forEach] spawns, by the calls of
    [input.handle] it makes, in order: the value and the client of each
    call.  With a dependency declared, [deps.slice(1)] throws for an
    [undefined] client list, before any call. *)
Definition forEach_handle {T} (this : Stage_ T) (depends : option Dependency)
    (event : E) (deps : Clients Client) : Outcome (list (T * option Client)) :=
  match depends with
  | None =>
      Resolved (List.map (λ value, (value, None)) (run this event deps))
  | Some _ =>
      match deps with
      | Some cs =>
          Resolved
            (List.map (λ value, (value, cs !! 0%nat))
               (run this event (Some (drop 1 cs))))
      | None => Rejected (TypeError "Cannot read property 'slice' of undefined")
      end
  end.

(** [forBatch] is [this.batched().forEach(…)]. *)
Definition forBatch_depends {T} (this : Stage_ T) (depends : option Dependency)
    (σ : Store_) : list Dependency :=
  forEach_depends (batched this None) depends σ.

Definition forBatch_handle {T} (this : Stage_ T) (depends : option Dependency)
    (event : E) (deps : Clients Client)
    : Outcome (list (list T * option Client)) :=
  forEach_handle (batched this None) depends event deps.

(** The calls of a handler one after the other, up to the first that
    throws. *)
Fixpoint each_call {A B} (call : A → Outcome B) (l : list A)
    : Outcome (list B) :=
  match l with
  | [] => Resolved []
  | a :: l' =>
      await (call a) (λ b, await (each_call call l') (λ bs, Resolved (b :: bs)))
  end.

(** The handler of the function of [toSink(scope, id, sink)], by the calls
    of [sink.sink(values)] it makes: [forBatch] with the dependency [sink]
    and the handler [(values, sink) => sink.sink(values)], whose [sink] is
    the client at index 0. *)
Definition toSink_handle {T} (this : Stage_ T) (sink : Dependency)
    (event : E) (deps : Clients Client) : Outcome (list (Client * list T)) :=
  await (forBatch_handle this (Some sink) event deps)
    (each_call
       (λ '(values, client),
          match client with
          | Some c => Resolved (c, values)
          | None =>
              Rejected (TypeError "Cannot read property 'sink' of undefined")
          end)).

End Terminal.

End Terminal.

(** ** The other operations of the client, on one item *)

Module Items.
Import JS DynamoDB.

(** The requests and the answers of [getItem] and [putItem] (aws-sdk). *)
Record GetItemInput : Type := {
  GetItem_TableName : string;
  GetItem_Key : Value
}.

Record GetItemOutput : Type := { GetItem_Item : option Object }.

Record PutItemInput : Type := {
  PutItem_TableName : string;
  PutItem_Item : Value
}.

Record PutItemOutput : Type := { PutItem_Attributes : option Object }.

(** The operations [getItem] and [putItem] of [this.client]. *)
Record ItemOperations : Type := {
  getItem : GetItemInput → Outcome GetItemOutput;
  putItem : PutItemInput → Outcome PutItemOutput
}.

(** The request of [get]. *)
Definition get_input (this : DynamoDBClient) (key : Value) : GetItemInput :=
  {| GetItem_TableName := tableName this;
     GetItem_Key := writeKey this key |}.

(** [get(key)]: the record, or [undefined]. *)
Definition get (this : DynamoDBClient) (ops : ItemOperations) (key : Value)
    : Outcome Value :=
  await (getItem ops (get_input this key))
    (λ result,
       match GetItem_Item result with
       | Some item => Resolved (read (mapper this) (M_ (VObj item)))
       | None => Resolved VUndefined
       end).

(** The request of [put]. *)
Definition put_input (this : DynamoDBClient) (item : Value) : PutItemInput :=
  {| PutItem_TableName := tableName this;
     PutItem_Item := JS.get (write (mapper this) item) "M" |}.

(** [put(item)] *)
Definition put (this : DynamoDBClient) (ops : ItemOperations) (item : Value)
    : Outcome PutItemOutput :=
  putItem ops (put_input this item).

End Items.

(** ** The enrichment step of the stream-processing example *)

Module StreamProcessing.
Import JS DynamoDB.

(** Whether a value counts as true in a condition. *)
Definition truthy (v : Value) : bool :=
  match v with
  | VUndefined => false
  | VBool b => b
  | VNum n => bool_decide (n ≠ 0)
  | VStr s => bool_decide (s ≠ "")
  | VArr _ => true
  | VObj _ => true
  end.

(** The handler of the [map] on the messages of the queue: it looks the key
    of the message up in the table of enrichments.  [now] is the value of
    [new Date()]. *)
Definition enrich (e : DynamoDBClient) (ops : Items.ItemOperations)
    (now : Value) (message : Object) : Outcome Value :=
  await (Items.get e ops (prop message "key"))
    (λ enrichment,
       Resolved
         (VObj (<[ "timestamp" := now ]>
                  (<[ "tags" := if truthy enrichment
                                then get enrichment "tags"
                                else VArr [] ]>
                     message)))).

End StreamProcessing.

(* ===================================================================== *)
(** * Part II: the vocabulary of the properties, and sample data          *)
(* ===================================================================== *)

(** ** For the stage chain *)

Module EnumerableSpec.
Import Enumerable.

Section Vocabulary.
Context {E Dependency Client : Type}.

Abbreviation Stage_ := (Enumerable E Client).
Abbreviation Store_ := (gmap loc (list Dependency)).
Abbreviation Clients_ := (Clients Client).

Implicit Types (σ : Store_) (deps : Clients_).

(** The clients a stage hands to its predecessor: the same list when the
    two stages hold the same dependency array, the rest otherwise. *)
Definition handed_down (same : bool) deps : Clients_ :=
  if same then deps else rest_clients deps.

(** The clients left for the predecessor of a stage that was declared with
    the dependency [d], or with none. *)
Definition left_for_previous (d : option Dependency) deps : Clients_ :=
  match d with
  | None => deps
  | Some _ => rest_clients deps
  end.

(** What the groups of a batching in groups of [n] look like: no group is
    empty or longer than [n], and every group but the last has [n] values. *)
Definition groups_of {T} (n : Z) (out : list (list T)) : Prop :=
  ∀ (i : nat) g, out !! i = Some g →
    (0 < Z.of_nat (length g) ≤ n)
    ∧ (S i < length out → Z.of_nat (length g) = n)%nat.

(** What [flatMap] or [map] return for the stage [s] in the store [σ] when
    no dependency is declared: the store as it was, and a stage that holds
    the array of [s]. *)
Definition keeps_array {T U} (s : Stage_ T) σ (r : Stage_ U * Store_) : Prop :=
  r.2 = σ ∧ dependencies r.1 = dependencies s.

(** What they return when the dependency [d] is declared: a stage that holds
    a new array, [d] followed by the entries of the array of [s], in a store
    whose other arrays are as they were. *)
Definition prepends {T U} (d : Dependency) (s : Stage_ T) σ
    (r : Stage_ U * Store_) : Prop :=
  let '(s', σ') := r in
  σ' !!! dependencies s' = d :: σ !!! dependencies s
  ∧ (∃ ds, σ' !! dependencies s' = Some ds ∧ ds !! 0%nat = Some d)
  ∧ (dependencies s' ∉ dom σ)
  ∧ ∀ l, l ∈ dom σ → σ' !! l = σ !! l.

End Vocabulary.

(** *** A sample chain

    Events are of type [unit], dependencies and clients are named by
    strings, and the head of the chain yields [1, 2, 3, 4, 5] and holds an
    empty dependency array. *)

Definition sample_store : gmap loc (list string) := {[ 1%positive := [] ]}.

Definition sample_s0 : Enumerable unit string nat :=
  Root (λ _ _, [1; 2; 3; 4; 5]%nat) 1%positive.

Definition sample_h1 (x : nat) (c : option string) : list nat := [x; x]%nat.

Definition sample_h2 (x : nat) (c : option string) : list nat := [S x].

Definition sample_s1 : Enumerable unit string nat * gmap loc (list string) :=
  flatMap sample_s0 (Some "D1") sample_h1 sample_store.

Definition sample_s2 : Enumerable unit string nat * gmap loc (list string) :=
  flatMap sample_s1.1 (Some "D2") sample_h2 sample_s1.2.

End EnumerableSpec.

(** ** For the client *)

Module DynamoDBSpec.
Import JS DynamoDB.

(** The counters of [a] are at most those of [b]. *)
Definition ns_le (a b : Namespace) : Prop :=
  (nameId a ≤ nameId b)%nat ∧ (valueId a ≤ valueId b)%nat.

(** Every placeholder of the writer [w] was drawn when the counters of its
    namespace were at least [lo] and less than [hi]. *)
Definition drawn_within (lo hi : Namespace) (w : Writer) : Prop :=
  ns_le lo hi
  ∧ (∀ ph field, (ph, field) ∈ names w →
       ∃ i, (nameId lo ≤ i < nameId hi)%nat ∧ ph = name_token i)
  ∧ (∀ ph v, (ph, v) ∈ values w →
       ∃ i, (valueId lo ≤ i < valueId hi)%nat ∧ ph = value_token i).

(** What a writer operation [m] keeps, started on the writer [w]. *)
Definition keeps_drawn (w : Writer) (m : Comp Writer) : Prop :=
  ∀ (σ : Heap) lo,
    drawn_within lo (σ !!! namespace w) w →
    namespace (m σ).1 = namespace w
    ∧ drawn_within lo ((m σ).2 !!! namespace w) (m σ).1.

(** The node the query writer writes for a key condition, on a client whose
    hash key has the name [k] and the codec [m]. *)
Definition key_condition_node (k : string) (m : Mapper)
    (condition : QueryCondition) : Node :=
  match condition with
  | HashKeyValue v => equals k (write m v)
  | HashKeyAndSortKeyCondition v sortKeyCond =>
      and_ (equals k (write m v)) sortKeyCond
  end.

(** The filter writer of [query], run in the store [σ1] on the namespace
    [ns]: the compiled filter, if any, and the store it leaves. *)
Definition compile_filter (ns : loc) (props : QueryProps) (σ1 : Heap)
    : option Expression * Heap :=
  match filter props with
  | Some node =>
      let r := synthesize node (new_Writer ns) σ1 in
      (Some (toExpression r.1), r.2)
  | None => (None, σ1)
  end.

(** *** A sample table

    The records of the table ["table"] have string members; the hash key is
    the member ["key"]. *)

(** The codec of a string member: [{S: v}]. *)
Definition string_mapper : Mapper :=
  {| write := λ v, VObj {[ "S" := v ]};
     read := λ v, get v "S" |}.

(** The codec of the record: [{M: {name: {S: v}, …}}]. *)
Definition record_mapper : Mapper :=
  {| write := λ v,
       match v with
       | VObj o => M_ (VObj (write string_mapper <$> o))
       | _ => M_ VUndefined
       end;
     read := λ v,
       match get v "M" with
       | VObj o => VObj (read string_mapper <$> o)
       | _ => VUndefined
       end |}.

Definition sample_type : ClassType :=
  {| Members_mapper := λ _, string_mapper; type_mapper := record_mapper |}.

(** A store that gives the same answer to every request of a kind. *)
Definition store_answering
    (got : Outcome AWS.BatchGetItemOutput)
    (written : Outcome AWS.BatchWriteItemOutput)
    (scanned : Outcome AWS.ScanOutput)
    (queried : Outcome AWS.QueryOutput) : AWS.DynamoDB :=
  {| AWS.batchGetItem := λ _, got;
     AWS.batchWriteItem := λ _, written;
     AWS.scan := λ _, scanned;
     AWS.query := λ _, queried |}.

Definition unavailable {A} : Outcome A := Rejected (ServiceError "Unavailable").

Definition sample_client (key : Key) (store : AWS.DynamoDB) : DynamoDBClient :=
  constructor sample_type key
    {| Props_tableName := "table"; Props_client := store |}.

(** The item [{key: {S: a}}] of the store, and the record [{key: a}]. *)
Definition item (a : string) : Object := {[ "key" := VObj {[ "S" := VStr a ]} ]}.

Definition record (a : string) : Value := VObj {[ "key" := VStr a ]}.

(** The write request that [batchPut] makes for a record. *)
Definition put_request (this : DynamoDBClient) (r : Value) : AWS.WriteRequest :=
  {| AWS.PutRequest_ := {| AWS.Item := get (write (mapper this) r) "M" |} |}.

(** A client whose fields [hashKeyName] and [hashKeyMapper] are assigned
    (the constructor assigns neither): the object [this] after
    [this.hashKeyName = name] and [this.hashKeyMapper = m]. *)
Definition with_hash_key (this : DynamoDBClient) (name : string) (m : Mapper)
    : DynamoDBClient :=
  {| client := client this; tableName := tableName this;
     mapper := mapper this;
     hashKeyName := Some name; sortKeyName := sortKeyName this;
     hashKeyMapper := Some m; sortKeyMapper := sortKeyMapper this;
     writeKey := writeKey this; readKey := readKey this |}.

Definition quiet_store : AWS.DynamoDB :=
  store_answering unavailable unavailable unavailable
    (Resolved {| AWS.Items := Some [item "a"]; AWS.LastEvaluatedKey := None |}).

(** A client of a table with the hash key ["pk"] and the sort key ["sk"]
    ([query] is typed for a client with a sort key only). *)
Definition keyed_client : DynamoDBClient :=
  with_hash_key (sample_client (SortKey "pk" "sk") quiet_store)
    "pk" string_mapper.

End DynamoDBSpec.

(** ** For chains of several stages *)

Module ChainSpec.
Import Enumerable.

Section Chains.
Context {E Dependency Client T : Type}.

(** One call of [flatMap]: the dependency it declares, if any, and its
    handler. *)
Abbreviation Step := (option Dependency * (T → option Client → list T))%type.

(** The chain [s0.flatMap(…)….flatMap(…)], given by its calls of [flatMap],
    the last call first. *)
Fixpoint flatMaps (steps : list Step) (s0 : Enumerable E Client T)
    : Alloc Dependency (Enumerable E Client T) :=
  match steps with
  | [] => ret s0
  | (d, h) :: inner => bind (flatMaps inner s0) (λ s, flatMap s d h)
  end.

(** The dependencies that the calls declare, the last call first. *)
Definition declared (steps : list Step) : list Dependency :=
  omap fst steps.

(** How many dependencies the calls after the call [j] declare (the calls
    before it in [steps]). *)
Definition offset (steps : list Step) (j : nat) : nat :=
  length (declared (take j steps)).

(** What a chain yields when the handler of the call [j] gets the client at
    index [offset steps j] of [cs], and [head k] is what the head of the
    chain yields for the clients from index [k] on.  [rest] is the part of
    [steps] from the call [j] on. *)
Fixpoint drained (steps : list Step) (j : nat) (rest : list Step)
    (cs : list Client) (head : nat → list T) : list T :=
  match rest with
  | [] => head (offset steps j)
  | (_, h) :: inner =>
      concat (List.map (λ x, h x (cs !! offset steps j))
                (drained steps (S j) inner cs head))
  end.

End Chains.

End ChainSpec.

(** ** Sample data for the operations on one item *)

Module ItemsSpec.
Import JS DynamoDB DynamoDBSpec Items.

(** A store that gives the same answer to every [getItem]. *)
Definition store_getting (answer : Outcome GetItemOutput) : ItemOperations :=
  {| getItem := λ _, answer;
     putItem := λ _, Resolved {| PutItem_Attributes := None |} |}.

(** The item [{key: {S: "a"}, tags: {S: "t"}}] and its record. *)
Definition tagged_item : Object :=
  {[ "key" := VObj {[ "S" := VStr "a" ]}; "tags" := VObj {[ "S" := VStr "t" ]} ]}.

Definition tagged_record : Object :=
  {[ "key" := VStr "a"; "tags" := VStr "t" ]}.

(** The message [{key: "a", count: 1}]. *)
Definition sample_message : Object :=
  {[ "key" := VStr "a"; "count" := VNum 1 ]}.

(** The key [{pk: {S: "a"}, sk: {S: "b"}}], as the store gives it. *)
Definition stored_key : Object :=
  {[ "pk" := VObj {[ "S" := VStr "a" ]};
     "sk" := VObj {[ "S" := VStr "b" ]} ]}.

End ItemsSpec.

(* ===================================================================== *)
(** * Part III: properties of the stage chain                             *)
(* ===================================================================== *)

Module EnumerableFacts.
Import Enumerable EnumerableSpec.

Section Facts.
Context {E Dependency Client : Type}.

Abbreviation Stage_ := (Enumerable E Client).
Abbreviation Store_ := (gmap loc (list Dependency)).
Abbreviation Clients_ := (Clients Client).

Implicit Types (σ : Store_) (deps : Clients_) (event : E).

(** *** [run] and its log *)

Lemma run_logged_values {T} (s : Stage_ T) event deps :
  (run_logged s event deps).2 = run s event deps.
Proof.
  revert deps. induction s as [T produce d | T U previous IH f d]; intros deps.
  - reflexivity.
  - simpl. destruct (decide (d = dependencies previous)).
    + specialize (IH deps).
      destruct (run_logged previous event deps) as [log values].
      simpl in *. by rewrite IH.
    + specialize (IH (rest_clients deps)).
      destruct (run_logged previous event (rest_clients deps)) as [log values].
      simpl in *. by rewrite IH.
Qed.

(** The log of a call starts with the call itself. *)
Lemma run_logged_head {T} (s : Stage_ T) event deps :
  ∃ rest, (run_logged s event deps).1 = invoked s deps :: rest.
Proof.
  destruct s as [T produce d | T U previous f d]; simpl.
  - by exists [].
  - destruct (decide (d = dependencies previous)).
    + destruct (run_logged previous event deps) as [log values]. by exists log.
    + destruct (run_logged previous event (rest_clients deps)) as [log values].
      by exists log.
Qed.

Lemma run_logged_stage {T U} (previous : Stage_ T)
    (f : list T → option Client → list U) d event deps :
  run_logged (Stage previous f d) event deps
  = let up := run_logged previous event
                (handed_down (bool_decide (d = dependencies previous)) deps) in
    (invoked (Stage previous f d) deps :: up.1, f up.2 (first_client deps)).
Proof.
  simpl. unfold handed_down. case_bool_decide as Hd.
  - rewrite decide_True by done. by destruct (run_logged previous event deps).
  - rewrite decide_False by done.
    by destruct (run_logged previous event (rest_clients deps)).
Qed.

(** *** The dependency list of a new stage *)

Lemma flatMap_None {T U} (s : Stage_ T) (h : T → option Client → list U) σ :
  ∃ f, flatMap (Dependency:=Dependency) s None h σ
       = (Stage s f (dependencies s), σ)
     ∧ ∀ values c, f values c = concat (List.map (λ v, h v c) values).
Proof. eexists. split; [reflexivity | done]. Qed.

Lemma flatMap_Some {T U} (s : Stage_ T) (h : T → option Client → list U)
    (d : Dependency) σ :
  ∃ f, flatMap s (Some d) h σ
       = (Stage s f (fresh (dom σ)),
          <[fresh (dom σ) := d :: σ !!! dependencies s]> σ)
     ∧ ∀ values c, f values c = concat (List.map (λ v, h v c) values).
Proof. eexists. split; [reflexivity | done]. Qed.

(** A new array is no array of the store. *)
Lemma fresh_not_allocated σ (l : loc) : l ∈ dom σ → fresh (dom σ) ≠ l.
Proof. intros Hl Heq. apply (is_fresh (dom σ)). by rewrite Heq. Qed.

(** *** Batches *)

Section Batches.
Context {T : Type}.
Implicit Types (batch it : list T) (out : list (list T)).

Lemma groups_of_nil n : groups_of (T:=T) n [].
Proof. intros i g Hi. by rewrite lookup_nil in Hi. Qed.

Lemma groups_of_last n (g : list T) :
  0 < Z.of_nat (length g) ≤ n → groups_of n [g].
Proof.
  intros Hg [|i] g' Hi; simpl in *.
  - injection Hi as <-. split; [done | lia].
  - by rewrite lookup_nil in Hi.
Qed.

Lemma groups_of_cons n g out :
  Z.of_nat (length g) = n → 0 < n → groups_of n out → groups_of n (g :: out).
Proof.
  intros Hg Hn Hout [|i] g' Hi; simpl in *.
  - injection Hi as <-. split; [lia | done].
  - destruct (Hout i g' Hi) as [H1 H2]. split; [done |].
    intros Hlt. apply H2. lia.
Qed.

Lemma batched_handle_sized n batch it :
  0 < n → Z.of_nat (length batch) < n →
  concat (batched_handle (Some n) batch it) = batch ++ it
  ∧ groups_of n (batched_handle (Some n) batch it).
Proof.
  intros Hn. revert batch.
  induction it as [|value it IH]; intros batch Hbatch; simpl.
  - destruct (decide (0 < length batch)%nat) as [Hpos | Hzero].
    + split; [simpl; by rewrite !app_nil_r | apply groups_of_last; lia].
    + assert (batch = []) as -> by (destruct batch; [done | simpl in *; lia]).
      split; [done | apply groups_of_nil].
  - destruct (decide (n ≠ 0 ∧ Z.of_nat (length (batch ++ [value])) = n))
      as [[_ Hfull] | Hnot].
    + destruct (IH []) as [Hconcat Hgroups]; [simpl; lia |].
      split.
      * simpl. rewrite Hconcat. simpl. by rewrite <- app_assoc.
      * by apply groups_of_cons.
    + rewrite length_app in Hnot. simpl in Hnot.
      destruct (IH (batch ++ [value])) as [Hconcat Hgroups].
      { rewrite length_app. simpl. lia. }
      split; [by rewrite Hconcat, <- app_assoc | done].
Qed.

(** With no size, and with a size that is zero or negative, no group is
    ever full: all the values make one group. *)
Lemma batched_handle_unset_acc size batch it :
  size = None ∨ (∃ n, size = Some n ∧ n ≤ 0) →
  batched_handle size batch it
  = if decide (0 < length (batch ++ it))%nat then [batch ++ it] else [].
Proof.
  intros Hsize. revert batch.
  induction it as [|value it IH]; intros batch; simpl.
  - by rewrite app_nil_r.
  - assert (batched_handle size batch (value :: it)
            = batched_handle size (batch ++ [value]) it) as Hstep.
    { destruct Hsize as [-> | (n & -> & Hn)]; simpl; [done |].
      case_decide as Hfull; [| done].
      destruct Hfull as [_ Hfull]. rewrite length_app in Hfull.
      simpl in Hfull. lia. }
    simpl in Hstep. rewrite Hstep, IH, <- app_assoc. done.
Qed.

Lemma batched_handle_unset size it :
  size = None ∨ (∃ n, size = Some n ∧ n ≤ 0) →
  batched_handle size [] it = match it with [] => [] | _ => [it] end.
Proof.
  intros Hsize. rewrite batched_handle_unset_acc; [| done].
  destruct it; simpl; done.
Qed.

End Batches.

Lemma run_batched {T} (s : Stage_ T) size event deps :
  run (batched s size) event deps
  = batched_handle size [] (run s event deps).
Proof. simpl. by rewrite decide_True. Qed.

(** *** Running a stage built by [flatMap] *)

Lemma concat_map_singleton {A B} (h : A → B) (l : list A) :
  concat (List.map (λ v, [h v]) l) = List.map h l.
Proof. induction l as [|a l IH]; simpl; [done | by rewrite IH]. Qed.

Lemma run_flatMap {T U} (s : Stage_ T) (h : T → option Client → list U)
    (d : option Dependency) σ s' σ' event deps :
  dependencies s ∈ dom σ →
  flatMap s d h σ = (s', σ') →
  run s' event deps
  = concat (List.map (λ x, h x (first_client deps))
              (run s event (left_for_previous d deps)))
  ∧ dependencies s' ∈ dom σ'.
Proof.
  intros Hs Hflat. destruct d as [d|].
  - destruct (flatMap_Some s h d σ) as (f & Heq & Hf).
    rewrite Heq in Hflat. injection Hflat as <- <-. simpl.
    rewrite decide_False by by apply fresh_not_allocated.
    split; [apply Hf |]. rewrite dom_insert. set_solver.
  - destruct (flatMap_None s h σ) as (f & Heq & Hf).
    rewrite Heq in Hflat. injection Hflat as <- <-. simpl.
    rewrite decide_True by done. split; [apply Hf | done].
Qed.

(** ** The claims on the stage chain *)

(** C1.  [run] hands the client list down the chain: the predecessor of a
    stage is called with the same client list when the two stages hold the
    same dependency array (the same object), and with the list without its
    index 0 otherwise; the transformation of the stage gets index 0.  For
    [s0] (its dependency array is empty), [s1] (declared with [D1] on [s0])
    and [s2] (declared with [D2] on [s1]), running [s2] with [[c2; c1]]
    calls [s1.run] with [[c1]] and [s0.run] with [[]]. *)
Theorem run_hands_down_clients {T U V} (s0 : Stage_ T)
    (h1 : T → option Client → list U) (h2 : U → option Client → list V)
    (D1 D2 : Dependency) (c1 c2 : Client) σ event :
  σ !! dependencies s0 = Some [] →
  (∀ A B (previous : Stage_ A) (f : list A → option Client → list B) d deps,
     ∃ rest,
       (run_logged (Stage previous f d) event deps).1
       = invoked (Stage previous f d) deps
         :: invoked previous
              (if decide (d = dependencies previous) then deps
               else match deps with
                    | Some cs => Some (drop 1 cs)
                    | None => Some []
                    end)
         :: rest
       ∧ run (Stage previous f d) event deps
         = f (run previous event
                (if decide (d = dependencies previous) then deps
                 else match deps with
                      | Some cs => Some (drop 1 cs)
                      | None => Some []
                      end))
             (match deps with Some cs => cs !! 0%nat | None => None end))
  ∧ ∀ s1 σ1 s2 σ2,
      flatMap s0 (Some D1) h1 σ = (s1, σ1) →
      flatMap s1 (Some D2) h2 σ1 = (s2, σ2) →
      σ2 !! dependencies s1 = Some [D1]
      ∧ σ2 !! dependencies s2 = Some [D2; D1]
      ∧ ∃ rest,
          (run_logged s2 event (Some [c2; c1])).1
          = invoked s2 (Some [c2; c1])
            :: invoked s1 (Some [c1])
            :: invoked s0 (Some [])
            :: rest.
Proof.
  intros Hs0. split.
  - intros A B previous f d deps.
    rewrite run_logged_stage. simpl. unfold handed_down.
    case_bool_decide as Hd.
    + rewrite !decide_True by done.
      destruct (run_logged_head previous event deps) as [rest Hrest].
      exists rest. by rewrite Hrest.
    + rewrite !decide_False by done.
      destruct (run_logged_head previous event (rest_clients deps))
        as [rest Hrest].
      exists rest. by rewrite Hrest.
  - intros s1 σ1 s2 σ2 H1 H2.
    assert (dependencies s0 ∈ dom σ) as Hdom0 by (apply elem_of_dom; eauto).
    destruct (flatMap_Some s0 h1 D1 σ) as (f1 & Heq1 & _).
    rewrite Heq1 in H1. injection H1 as <- <-.
    destruct (flatMap_Some (Stage s0 f1 (fresh (dom σ))) h2 D2
                (<[fresh (dom σ) := D1 :: σ !!! dependencies s0]> σ))
      as (f2 & Heq2 & _).
    rewrite Heq2 in H2. injection H2 as <- <-. simpl dependencies.
    set (l1 := fresh (dom σ)).
    set (σ1 := <[l1 := D1 :: σ !!! dependencies s0]> σ).
    set (l2 := fresh (dom σ1)).
    assert (l1 ≠ dependencies s0) as Hl1 by by apply fresh_not_allocated.
    assert (l2 ≠ l1) as Hl2.
    { apply fresh_not_allocated. subst σ1. rewrite dom_insert. set_solver. }
    assert (σ !!! dependencies s0 = []) as Hnil
      by by rewrite lookup_total_alt, Hs0.
    assert (σ1 !! l1 = Some [D1]) as Hread1.
    { subst σ1. by rewrite lookup_insert_eq, Hnil. }
    split; [by rewrite lookup_insert_ne |].
    split.
    { rewrite lookup_insert_eq, (lookup_total_alt σ1), Hread1. done. }
    rewrite !run_logged_stage. simpl.
    rewrite !bool_decide_eq_false_2 by done. simpl.
    destruct (run_logged_head s0 event (Some [])) as [rest Hrest].
    exists rest. by rewrite Hrest.
Qed.

(** C5.  [batched(size)] groups the upstream values in arrival order: the
    groups put end to end are the upstream sequence, every group but the
    last has exactly [size] values, and the last has between one and [size]
    values, so a shorter last group is emitted exactly when it is not empty.
    With no [size], the whole upstream sequence is one group, and nothing is
    emitted for an empty upstream.  [batched(3)] over [[a,b,c,d,e]] yields
    [[[a,b,c],[d,e]]], and [batched()] over [[]] yields [[]]. *)
Theorem batched_groups_in_arrival_order {T} (s : Stage_ T) event deps (n : Z) :
  0 < n →
  (concat (run (batched s (Some n)) event deps) = run s event deps
   ∧ groups_of n (run (batched s (Some n)) event deps))
  ∧ run (batched s None) event deps
    = match run s event deps with [] => [] | _ => [run s event deps] end
  ∧ (∀ a b c d e, run s event deps = [a; b; c; d; e] →
       run (batched s (Some 3)) event deps = [[a; b; c]; [d; e]])
  ∧ (run s event deps = [] → run (batched s None) event deps = []).
Proof.
  intros Hn. rewrite !run_batched.
  split; [| split; [| split]].
  - apply batched_handle_sized; [done | simpl; lia].
  - apply batched_handle_unset. by left.
  - intros a b c d e ->. reflexivity.
  - intros ->. reflexivity.
Qed.

(** C6.  [map] is [flatMap] with the result of the handler wrapped in a
    one-element sequence; a stage built by [flatMap] yields, for each
    upstream value in order, the results of the handler in order; so
    draining [stage.map(f).map(g)] yields [g (f x1), …, g (f xn)] for the
    upstream values [x1, …, xn] of [stage].  (A handler also gets a client,
    index 0 of the client list of its stage.) *)
Theorem map_map_in_order {T U V} (s : Stage_ T)
    (f : T → option Client → U) (g : U → option Client → V)
    (d1 d2 : option Dependency) σ event deps :
  dependencies s ∈ dom σ →
  map s d1 f = flatMap s d1 (λ v c, [f v c])
  ∧ (∀ W (h : T → option Client → list W) s' σ',
       flatMap s d1 h σ = (s', σ') →
       run s' event deps
       = concat (List.map (λ x, h x (first_client deps))
                   (run s event (left_for_previous d1 deps))))
  ∧ ∀ s1 σ1 s2 σ2,
      map s d1 f σ = (s1, σ1) →
      map s1 d2 g σ1 = (s2, σ2) →
      run s2 event deps
      = List.map
          (λ x, g (f x (first_client (left_for_previous d2 deps)))
                  (first_client deps))
          (run s event (left_for_previous d1 (left_for_previous d2 deps))).
Proof.
  intros Hs. split; [reflexivity |]. split.
  - intros W h s' σ' Hflat.
    by destruct (run_flatMap s h d1 σ s' σ' event deps Hs Hflat).
  - intros s1 σ1 s2 σ2 H1 H2. unfold map in *.
    destruct (run_flatMap _ _ _ _ _ _ event (left_for_previous d2 deps) Hs H1)
      as [Hrun1 Hs1].
    destruct (run_flatMap _ _ _ _ _ _ event deps Hs1 H2) as [Hrun2 _].
    rewrite Hrun2, Hrun1, !concat_map_singleton, List.map_map. done.
Qed.

Lemma flatMap_prepends {T U} (s : Stage_ T) (h : T → option Client → list U)
    (d : Dependency) σ :
  prepends d s σ (flatMap s (Some d) h σ).
Proof.
  destruct (flatMap_Some s h d σ) as (f & -> & _). unfold prepends. simpl.
  rewrite lookup_total_insert_eq, lookup_insert_eq.
  split; [done |]. split; [by eexists |]. split; [apply is_fresh |].
  intros l Hl. rewrite lookup_insert_ne; [done |].
  by apply fresh_not_allocated.
Qed.

(** C7.  A stage declared with a new dependency holds a new array: the
    dependency at index 0, then the entries of the array of its predecessor,
    unchanged and in order; no array that existed is modified.  A stage
    declared with no dependency holds the very array of its predecessor, and
    nothing is allocated.  The same holds for [map]. *)
Theorem flatMap_prepends_dependency {T U} (s : Stage_ T)
    (h : T → option Client → list U) (h' : T → option Client → U) σ :
  keeps_array s σ (flatMap s None h σ)
  ∧ keeps_array s σ (map s None h' σ)
  ∧ ∀ d : Dependency,
      prepends d s σ (flatMap s (Some d) h σ)
      ∧ prepends d s σ (map s (Some d) h' σ).
Proof.
  split; [by split |]. split; [by split |].
  intros d. split; apply flatMap_prepends.
Qed.

End Facts.

(** *** The claims on the sample chain *)

Lemma run_hands_down_clients_witness :
  sample_store !! dependencies sample_s0 = Some []
  ∧ sample_s2.2 !! dependencies sample_s2.1 = Some ["D2"; "D1"]
  ∧ ∃ rest,
      (run_logged sample_s2.1 () (Some ["c2"; "c1"])).1
      = invoked sample_s2.1 (Some ["c2"; "c1"])
        :: invoked sample_s1.1 (Some ["c1"])
        :: invoked sample_s0 (Some [])
        :: rest.
Proof.
  split; [reflexivity |].
  destruct (run_hands_down_clients sample_s0 sample_h1 sample_h2
              "D1" "D2" "c1" "c2" sample_store () eq_refl) as [_ H].
  destruct (H sample_s1.1 sample_s1.2 sample_s2.1 sample_s2.2
              eq_refl eq_refl) as (_ & H2 & Hlog).
  exact (conj H2 Hlog).
Defined.

Lemma batched_groups_in_arrival_order_witness :
  0 < 2
  ∧ concat (run (batched sample_s0 (Some 2)) () None) = [1; 2; 3; 4; 5]%nat
  ∧ groups_of 2 (run (batched sample_s0 (Some 2)) () None)
  ∧ run (batched sample_s0 (Some 2)) () None = [[1; 2]; [3; 4]; [5]]%nat.
Proof.
  assert (0 < 2) as Hn by lia.
  split; [exact Hn |].
  destruct (batched_groups_in_arrival_order sample_s0 () None 2 Hn)
    as [[Hconcat Hgroups] _].
  split; [exact Hconcat |]. split; [exact Hgroups | reflexivity].
Defined.

Lemma map_map_in_order_witness :
  dependencies sample_s0 ∈ dom sample_store
  ∧ ∀ s1 σ1 s2 σ2,
      map sample_s0 None (λ x _, 10 * x)%nat sample_store = (s1, σ1) →
      map s1 (Some "D") (λ x _, S x) σ1 = (s2, σ2) →
      run s2 () (Some ["c"]) = [11; 21; 31; 41; 51]%nat.
Proof.
  assert (dependencies sample_s0 ∈ dom sample_store) as Hs.
  { apply elem_of_dom. by eexists. }
  split; [exact Hs |].
  destruct (map_map_in_order sample_s0 (λ x _, 10 * x)%nat (λ x _, S x)
              None (Some "D") sample_store () (Some ["c"]) Hs) as (_ & _ & H).
  exact H.
Defined.

End EnumerableFacts.


(* ===================================================================== *)
(** * Part IV: properties of the DynamoDB client                          *)
(* ===================================================================== *)

Module DynamoDBFacts.
Import JS DynamoDB DynamoDBSpec.

(** *** Placeholders are drawn from the namespace *)

Lemma name_token_inj i j : name_token i = name_token j → i = j.
Proof.
  unfold name_token. intros H.
  apply (inj (String.app "#n")) in H. by apply (inj pretty) in H.
Qed.

Lemma value_token_inj i j : value_token i = value_token j → i = j.
Proof.
  unfold value_token. intros H.
  apply (inj (String.app ":v")) in H. by apply (inj pretty) in H.
Qed.

Lemma drawn_within_new n ns : drawn_within n n (new_Writer ns).
Proof.
  split; [split; lia |].
  split; intros ph x Hin; simpl in Hin; by apply elem_of_nil in Hin.
Qed.

Lemma drawn_within_writeToken lo hi w t :
  drawn_within lo hi w → drawn_within lo hi (writeToken w t).
Proof. done. Qed.

Lemma keeps_drawn_ret w w' :
  namespace w' = namespace w → names w' = names w → values w' = values w →
  keeps_drawn w (ret w').
Proof.
  intros Hns Hn Hv σ lo (Hle & H1 & H2). simpl.
  split; [done |]. split; [done |].
  split; [by rewrite Hn | by rewrite Hv].
Qed.

Lemma keeps_drawn_bind w m k :
  keeps_drawn w m →
  (∀ w', namespace w' = namespace w → keeps_drawn w' (k w')) →
  keeps_drawn w (bind m k).
Proof.
  intros Hm Hk σ lo Hw. unfold bind.
  destruct (Hm σ lo Hw) as (Hns & Hdrawn).
  destruct (m σ) as [w1 σ1]. simpl in *.
  rewrite <- Hns in Hdrawn.
  destruct (Hk w1 Hns σ1 lo Hdrawn) as (Hns' & Hdrawn').
  rewrite Hns in Hns', Hdrawn'. done.
Qed.

Lemma keeps_drawn_start w t m :
  keeps_drawn (writeToken w t) m → keeps_drawn w m.
Proof.
  intros Hm σ lo Hw. apply (Hm σ lo). by apply drawn_within_writeToken.
Qed.

Lemma keeps_drawn_writeName w field : keeps_drawn w (writeName w field).
Proof.
  unfold writeName. destruct (placeholder_of field (names w)) as [ph|].
  - by apply keeps_drawn_ret.
  - intros σ lo ([Hle1 Hle2] & Hn & Hv). simpl.
    rewrite lookup_total_insert_eq. simpl.
    split; [done |]. split; [split; simpl; lia |]. split; simpl.
    + intros ph f [Hin | Hin]%elem_of_app.
      * destruct (Hn ph f Hin) as (i & Hi & ->).
        exists i. split; [lia | done].
      * apply list_elem_of_singleton in Hin. injection Hin as -> ->.
        exists (nameId (σ !!! namespace w)). split; [lia | done].
    + done.
Qed.

Lemma keeps_drawn_writeValue w v : keeps_drawn w (writeValue w v).
Proof.
  unfold writeValue. destruct (placeholder_of v (values w)) as [ph|].
  - by apply keeps_drawn_ret.
  - intros σ lo ([Hle1 Hle2] & Hn & Hv). simpl.
    rewrite lookup_total_insert_eq. simpl.
    split; [done |]. split; [split; simpl; lia |]. split; simpl.
    + done.
    + intros ph x [Hin | Hin]%elem_of_app.
      * destruct (Hv ph x Hin) as (i & Hi & ->).
        exists i. split; [lia | done].
      * apply list_elem_of_singleton in Hin. injection Hin as -> ->.
        exists (valueId (σ !!! namespace w)). split; [lia | done].
Qed.

Lemma keeps_drawn_writeArgs args w : keeps_drawn w (writeArgs args w).
Proof.
  revert w. induction args as [|v args IH]; intros w; simpl.
  - by apply keeps_drawn_ret.
  - apply keeps_drawn_bind.
    + apply (keeps_drawn_start w ", "). apply keeps_drawn_writeValue.
    + intros w' _. apply IH.
Qed.

Lemma keeps_drawn_close w t : keeps_drawn w (ret (writeToken w t)).
Proof. by apply keeps_drawn_ret. Qed.

Lemma keeps_drawn_synthesize node w : keeps_drawn w (synthesize node w).
Proof.
  revert w. induction node as
    [path operator value | l IHl r IHr | l IHl r IHr | b IHb | name path args];
    intros w; simpl.
  - apply keeps_drawn_bind; [apply keeps_drawn_writeName |].
    intros w' _. apply (keeps_drawn_start w' (" " +:+ operator +:+ " ")).
    apply keeps_drawn_writeValue.
  - apply keeps_drawn_bind; [apply (keeps_drawn_start w "("), IHl |].
    intros w1 _.
    apply keeps_drawn_bind; [apply (keeps_drawn_start w1 ") AND ("), IHr |].
    intros w2 _. apply keeps_drawn_close.
  - apply keeps_drawn_bind; [apply (keeps_drawn_start w "("), IHl |].
    intros w1 _.
    apply keeps_drawn_bind; [apply (keeps_drawn_start w1 ") OR ("), IHr |].
    intros w2 _. apply keeps_drawn_close.
  - apply keeps_drawn_bind; [apply (keeps_drawn_start w "NOT ("), IHb |].
    intros w1 _. apply keeps_drawn_close.
  - apply keeps_drawn_bind.
    + apply (keeps_drawn_start w (name +:+ "(")). apply keeps_drawn_writeName.
    + intros w1 _. apply keeps_drawn_bind; [apply keeps_drawn_writeArgs |].
      intros w2 _. apply keeps_drawn_close.
Qed.

(** Two writers whose placeholders were drawn one after the other share no
    placeholder. *)
Lemma drawn_apart lo mid hi w1 w2 :
  drawn_within lo mid w1 → drawn_within mid hi w2 →
  dom (Expression_AttributeNames (toExpression w2))
    ## dom (Expression_AttributeNames (toExpression w1))
  ∧ dom (Expression_AttributeValues (toExpression w2))
    ## dom (Expression_AttributeValues (toExpression w1)).
Proof.
  intros (_ & Hn1 & Hv1) (_ & Hn2 & Hv2). simpl. split.
  - apply elem_of_disjoint. intros ph [f2 H2]%elem_of_dom [f1 H1]%elem_of_dom.
    apply elem_of_list_to_map_2 in H1, H2.
    destruct (Hn1 ph f1 H1) as (i & Hi & ->).
    destruct (Hn2 _ f2 H2) as (j & Hj & Heq).
    apply name_token_inj in Heq. lia.
  - apply elem_of_disjoint. intros ph [v2 H2]%elem_of_dom [v1 H1]%elem_of_dom.
    apply elem_of_list_to_map_2 in H1, H2.
    destruct (Hv1 ph v1 H1) as (i & Hi & ->).
    destruct (Hv2 _ v2 H2) as (j & Hj & Heq).
    apply value_token_inj in Heq. lia.
Qed.

(** *** A comparison written by a new writer *)

Lemma newName_insert ns n (σ : Heap) :
  newName ns (<[ns := n]> σ)
  = (name_token (nameId n),
     <[ns := {| nameId := S (nameId n); valueId := valueId n |}]> σ).
Proof.
  unfold newName. by rewrite lookup_total_insert_eq, insert_insert_eq.
Qed.

Lemma newValue_insert ns n (σ : Heap) :
  newValue ns (<[ns := n]> σ)
  = (value_token (valueId n),
     <[ns := {| nameId := nameId n; valueId := S (valueId n) |}]> σ).
Proof.
  unfold newValue. by rewrite lookup_total_insert_eq, insert_insert_eq.
Qed.

Lemma synthesize_comparison_new ns n (σ : Heap) path operator v :
  synthesize (Comparison path operator v) (new_Writer ns) (<[ns := n]> σ)
  = ({| namespace := ns;
        tokens := [name_token (nameId n); " " +:+ operator +:+ " ";
                   value_token (valueId n)];
        names := [(name_token (nameId n), path)];
        values := [(value_token (valueId n), v)] |},
     <[ns := {| nameId := S (nameId n); valueId := S (valueId n) |}]> σ).
Proof.
  unfold synthesize, writeName, writeValue, bind, placeholder_of. simpl.
  by rewrite !lookup_total_insert_eq, !insert_insert_eq.
Qed.

(** *** What [query] compiles *)

Lemma andThen_lift {A B} (m : Comp A) (k : A → Exec B) (σ : Heap) :
  andThen (lift m) k σ = k (m σ).1 (m σ).2.
Proof. unfold andThen, lift. by destruct (m σ). Qed.

Lemma andThen_pure {A B} (a : A) (k : A → Exec B) (σ : Heap) :
  andThen (pure a) k σ = k a σ.
Proof. done. Qed.

Lemma andThen_throw {A B} (e : Error) (k : A → Exec B) (σ : Heap) :
  andThen (throw e) k σ = (Rejected e, σ).
Proof. done. Qed.

Lemma andThen_assoc {A B C} (m : Exec A) (k : A → Exec B) (k' : B → Exec C)
    (σ : Heap) :
  andThen (andThen m k) k' σ = andThen m (λ a, andThen (k a) k') σ.
Proof. unfold andThen. by destruct (m σ) as [[a|e] σ']. Qed.

Ltac exec_step :=
  first [ rewrite andThen_lift | rewrite andThen_pure
        | rewrite andThen_throw | rewrite andThen_assoc ].

Lemma query_compile_resolved this m k condition props (σ : Heap) :
  hashKeyMapper this = Some m → hashKeyName this = Some k →
  query_compile this condition props σ
  = let ns := fresh (dom σ) in
    let f := compile_filter ns props
               (<[ns := {| nameId := 0; valueId := 0 |}]> σ) in
    let q := synthesize (key_condition_node k m condition)
               (new_Writer ns) f.2 in
    (Resolved (toExpression q.1, f.1), q.2).
Proof.
  intros Hm Hk.
  unfold query_compile, compile_filter, member, writeNode, key_condition_node.
  rewrite Hm, Hk.
  destruct (filter props) as [node|], condition as [v | v sortKeyCond];
    repeat exec_step; reflexivity.
Qed.

(** [query] compiles its key condition only on a client whose fields
    [hashKeyMapper] and [hashKeyName] are defined. *)
Lemma query_compile_resolved_inv this condition props (σ σ' : Heap) r :
  query_compile this condition props σ = (Resolved r, σ') →
  ∃ m k, hashKeyMapper this = Some m ∧ hashKeyName this = Some k.
Proof.
  destruct (hashKeyMapper this) as [m|] eqn:Hm;
    destruct (hashKeyName this) as [k|] eqn:Hk; [by eauto | | |];
    intros H; exfalso; revert H;
    unfold query_compile, member, writeNode;
    rewrite ?Hm, ?Hk;
    destruct (filter props) as [node|], condition;
    repeat exec_step; discriminate.
Qed.

Lemma compile_filter_drawn ns props (σ : Heap) n0 :
  σ !!! ns = n0 →
  ∃ fw, namespace fw = ns
        ∧ drawn_within n0 ((compile_filter ns props σ).2 !!! ns) fw
        ∧ (compile_filter ns props σ).1
          = match filter props with
            | Some _ => Some (toExpression fw)
            | None => None
            end.
Proof.
  intros Hn0. unfold compile_filter. destruct (filter props) as [node|].
  - destruct (keeps_drawn_synthesize node (new_Writer ns) σ n0) as [Hns Hd].
    { simpl. rewrite Hn0. apply drawn_within_new. }
    exists (synthesize node (new_Writer ns) σ).1. done.
  - exists (new_Writer ns). simpl. rewrite Hn0.
    split; [done |]. split; [apply drawn_within_new | done].
Qed.

(** The placeholders of the key condition and those of the filter. *)
Lemma query_compile_apart this condition props (σ σ' : Heap)
    queryExpr filterExpr :
  query_compile this condition props σ
  = (Resolved (queryExpr, Some filterExpr), σ') →
  dom (Expression_AttributeNames queryExpr)
    ## dom (Expression_AttributeNames filterExpr)
  ∧ dom (Expression_AttributeValues queryExpr)
    ## dom (Expression_AttributeValues filterExpr).
Proof.
  intros Hc.
  destruct (query_compile_resolved_inv _ _ _ _ _ _ Hc) as (m & k & Hm & Hk).
  rewrite (query_compile_resolved this m k) in Hc by done. simpl in Hc.
  set (ns := fresh (dom σ)) in *.
  set (σ1 := <[ns := {| nameId := 0; valueId := 0 |}]> σ) in *.
  destruct (compile_filter_drawn ns props σ1 {| nameId := 0; valueId := 0 |})
    as (fw & Hfns & Hfw & Hfe).
  { subst σ1. by rewrite lookup_total_insert_eq. }
  set (f := compile_filter ns props σ1) in *.
  destruct (keeps_drawn_synthesize (key_condition_node k m condition)
              (new_Writer ns) f.2 (f.2 !!! ns)) as [_ Hqw].
  { apply drawn_within_new. }
  simpl in Hqw.
  injection Hc as <- Hfilter _. rewrite Hfe in Hfilter.
  destruct (filter props); [| discriminate]. injection Hfilter as <-.
  by apply (drawn_apart _ _ _ _ _ Hfw Hqw).
Qed.

(** *** Keys *)

Lemma prop_singleton (k : string) (v : Value) : prop {[ k := v ]} k = v.
Proof. unfold prop. by rewrite lookup_singleton_eq. Qed.

Lemma prop_insert_eq (o : Object) (k : string) (v : Value) :
  prop (<[ k := v ]> o) k = v.
Proof. unfold prop. by rewrite lookup_insert_eq. Qed.

Lemma prop_insert_ne (o : Object) (k k' : string) (v : Value) :
  k ≠ k' → prop (<[ k := v ]> o) k' = prop o k'.
Proof. intros Hne. unfold prop. by rewrite lookup_insert_ne. Qed.

(** What [readKey] makes of a written key, for a codec that reads back what
    it wrote: an object with a property for each key field. *)
Lemma readKey_writeKey_hash type key config k :
  read (Members_mapper type key) (write (Members_mapper type key) k) = k →
  readKey (constructor type (HashKey key) config)
    (writeKey (constructor type (HashKey key) config) k)
  = VObj {[ key := k ]}.
Proof. intros Hinv. simpl. by rewrite prop_singleton, Hinv. Qed.

Lemma readKey_writeKey_sort type hk sk config h s :
  hk ≠ sk →
  read (Members_mapper type hk) (write (Members_mapper type hk) h) = h →
  read (Members_mapper type sk) (write (Members_mapper type sk) s) = s →
  readKey (constructor type (SortKey hk sk) config)
    (writeKey (constructor type (SortKey hk sk) config) (VArr [h; s]))
  = VObj (<[ sk := s ]> {[ hk := h ]}).
Proof.
  intros Hne Hh Hs. simpl.
  rewrite prop_insert_eq, prop_insert_ne, prop_singleton by done.
  by rewrite Hh, Hs.
Qed.

(** [readKey] returns an object, whatever the key. *)
Lemma readKey_is_object type key config w :
  ∃ o, readKey (constructor type key config) w = VObj o.
Proof. destruct key; simpl; by eexists. Qed.

(** *** Batch operations and [scan] *)

Lemma batchGet_resolved this keys result :
  AWS.batchGetItem (client this) (batchGet_input this keys) = Resolved result →
  batchGet this keys
  = match AWS.Responses result ≫= (.!! tableName this) with
    | Some items =>
        Resolved
          (List.map (λ item, read (mapper this) (M_ (prop item "Item"))) items)
    | None => Rejected (GenericError "TODO")
    end.
Proof.
  intros Hstore. unfold batchGet. rewrite Hstore. simpl.
  destruct (AWS.Responses result) as [responses|]; simpl; [| done].
  by destruct (responses !! tableName this).
Qed.

(** [batchGet] fails with the generic error exactly when the response has no
    payload for the table. *)
Lemma batchGet_rejected_iff this keys result :
  AWS.batchGetItem (client this) (batchGet_input this keys) = Resolved result →
  batchGet this keys = Rejected (GenericError "TODO")
  ↔ AWS.Responses result = None
    ∨ ∃ responses, AWS.Responses result = Some responses
                   ∧ responses !! tableName this = None.
Proof.
  intros Hstore. rewrite (batchGet_resolved _ _ _ Hstore).
  destruct (AWS.Responses result) as [responses|]; simpl.
  - destruct (responses !! tableName this) eqn:Hitems; split.
    + discriminate.
    + intros [? | (r & [= <-] & Hr)]; congruence.
    + intros _. right. by exists responses.
    + done.
  - split; [by left | done].
Qed.

(** What [batchGet] returns does not depend on the attributes of the items,
    the attribute [Item] apart. *)
Lemma batchGet_reads_Item_attribute this keys result items :
  AWS.batchGetItem (client this) (batchGet_input this keys) = Resolved result →
  AWS.Responses result ≫= (.!! tableName this) = Some items →
  Forall (λ item : Object, item !! "Item" = None) items →
  batchGet this keys
  = Resolved (List.map (λ _, read (mapper this) (M_ VUndefined)) items).
Proof.
  intros Hstore Hitems Hall.
  rewrite (batchGet_resolved _ _ _ Hstore), Hitems. f_equal.
  clear Hstore Hitems.
  induction Hall as [|item items Hitem _ IH]; simpl; [done |].
  rewrite IH. unfold prop. by rewrite Hitem.
Qed.

Lemma batchPut_resolved this batch result :
  AWS.batchWriteItem (client this) (batchPut_input this batch)
  = Resolved result →
  batchPut this batch
  = Resolved
      match AWS.UnprocessedItems result with
      | None => Some []
      | Some unprocessed => unprocessed !! tableName this
      end.
Proof.
  intros Hstore. unfold batchPut. rewrite Hstore. simpl.
  by destruct (AWS.UnprocessedItems result).
Qed.

(** The request of [batchPut] has one put request for each record, in
    order, under the name of the table. *)
Lemma batchPut_input_requests this batch :
  AWS.BatchWriteItem_RequestItems (batchPut_input this batch)
    !! tableName this
  = Some (List.map
            (λ record,
               {| AWS.PutRequest_ :=
                    {| AWS.Item := get (write (mapper this) record) "M" |} |})
            batch).
Proof. simpl. by rewrite lookup_singleton_eq. Qed.

Lemma scan_resolved this result :
  AWS.scan (client this) {| AWS.Scan_TableName := tableName this |}
  = Resolved result →
  scan this
  = Resolved
      match AWS.Scan_Items result with
      | Some items =>
          List.map (λ item, read (mapper this) (M_ (VObj item))) items
      | None => []
      end.
Proof.
  intros Hstore. unfold scan. rewrite Hstore. simpl.
  by destruct (AWS.Scan_Items result).
Qed.


(** *** The sample table *)

Example record_mapper_roundtrip :
  read record_mapper (write record_mapper (record "a")) = record "a".
Proof. vm_compute. reflexivity. Qed.

Example scan_decodes_items :
  scan (sample_client (HashKey "key")
          (store_answering unavailable unavailable
             (Resolved {| AWS.Scan_Items := Some [item "a"; item "b"] |})
             unavailable))
  = Resolved [record "a"; record "b"].
Proof. vm_compute. reflexivity. Qed.

(** [batchPut] returns the entry of the table in the unprocessed items as it
    is: when the store leaves the write request of [r2] unprocessed, that
    request is the result; when the answer has no unprocessed items at all,
    the result is the empty list. *)
Lemma batchPut_returns_table_entry this batch unprocessed requests :
  AWS.batchWriteItem (client this) (batchPut_input this batch)
  = Resolved {| AWS.UnprocessedItems := Some unprocessed |} →
  unprocessed !! tableName this = Some requests →
  batchPut this batch = Resolved (Some requests).
Proof.
  intros Hstore Hentry. rewrite (batchPut_resolved _ _ _ Hstore). simpl.
  by rewrite Hentry.
Qed.

Example batchPut_r2_unprocessed :
  batchPut
    (sample_client (HashKey "key")
       (store_answering unavailable
          (Resolved
             {| AWS.UnprocessedItems :=
                  Some {[ "table" :=
                            [put_request
                               (sample_client (HashKey "key") quiet_store)
                               (record "r2")] ]} |})
          unavailable unavailable))
    [record "r1"; record "r2"; record "r3"]
  = Resolved
      (Some [put_request (sample_client (HashKey "key") quiet_store)
               (record "r2")]).
Proof. vm_compute. reflexivity. Qed.

Example batchPut_no_unprocessed_section :
  batchPut
    (sample_client (HashKey "key")
       (store_answering unavailable
          (Resolved {| AWS.UnprocessedItems := None |})
          unavailable unavailable))
    [record "r1"; record "r2"; record "r3"]
  = Resolved (Some []).
Proof. reflexivity. Qed.

(** On a client as the constructor leaves it, [query] throws before it
    submits a request: [this.hashKeyMapper] is [undefined]. *)
Lemma query_constructed_client_throws type key config condition props
    (σ : Heap) :
  ∃ σ',
    query (constructor type key config) condition props σ
    = (Rejected (TypeError "Cannot read property 'write' of undefined"), σ').
Proof.
  unfold query, query_input, query_compile, member. simpl.
  destruct (filter props) as [node|], condition;
    repeat exec_step; by eexists.
Qed.

(** ** The claims on the client *)

(** C3.  On the code, [readKey (writeKey k)] is not [k]: [writeKey] takes the
    value of the hash key, or the pair of the values of the hash key and of
    the sort key, and [readKey] returns an object with a property for each
    key field.  For the hash key ["key"], the key ["a"] comes back as
    [{key: "a"}]; for the keys ["pk"] and ["sk"], the pair [["a", "b"]] comes
    back as [{pk: "a", sk: "b"}]. *)
Theorem readKey_writeKey_is_keyed_object :
  readKey (sample_client (HashKey "key") quiet_store)
    (writeKey (sample_client (HashKey "key") quiet_store) (VStr "a"))
  = VObj {[ "key" := VStr "a" ]}
  ∧ readKey (sample_client (HashKey "key") quiet_store)
      (writeKey (sample_client (HashKey "key") quiet_store) (VStr "a"))
    ≠ VStr "a"
  ∧ readKey (sample_client (SortKey "pk" "sk") quiet_store)
      (writeKey (sample_client (SortKey "pk" "sk") quiet_store)
         (VArr [VStr "a"; VStr "b"]))
    = VObj (<[ "sk" := VStr "b" ]> {[ "pk" := VStr "a" ]})
  ∧ readKey (sample_client (SortKey "pk" "sk") quiet_store)
      (writeKey (sample_client (SortKey "pk" "sk") quiet_store)
         (VArr [VStr "a"; VStr "b"]))
    ≠ VArr [VStr "a"; VStr "b"].
Proof.
  assert (∀ v, read string_mapper (write string_mapper v) = v) as Hinv.
  { intros v. simpl. apply prop_singleton. }
  unfold sample_client.
  rewrite (readKey_writeKey_hash sample_type "key") by apply Hinv.
  rewrite (readKey_writeKey_sort sample_type "pk" "sk")
    by (done || apply Hinv).
  done.
Qed.

(** C4.  When the store answers [batchPut] with a map of unprocessed items
    that has no entry for the table (the empty map: everything was
    persisted), [batchPut] returns [undefined], not the empty list. *)
Theorem batchPut_without_table_entry :
  batchPut
    (sample_client (HashKey "key")
       (store_answering unavailable
          (Resolved {| AWS.UnprocessedItems := Some ∅ |})
          unavailable unavailable))
    [record "r1"; record "r2"; record "r3"]
  = Resolved None.
Proof. reflexivity. Qed.

(** C8.  When the store answers [batchGet] with the item [{key: {S: "a"}}]
    for the table, [batchGet] does not return the record [{key: "a"}], which
    [scan] returns for the same item: it decodes the attribute [Item] of the
    item, which the item does not have. *)
Theorem batchGet_decodes_Item_attribute :
  batchGet
    (sample_client (HashKey "key")
       (store_answering
          (Resolved {| AWS.Responses := Some {[ "table" := [item "a"] ]} |})
          unavailable
          (Resolved {| AWS.Scan_Items := Some [item "a"] |})
          unavailable))
    [VStr "a"]
  = Resolved [VUndefined]
  ∧ scan
      (sample_client (HashKey "key")
         (store_answering
            (Resolved {| AWS.Responses := Some {[ "table" := [item "a"] ]} |})
            unavailable
            (Resolved {| AWS.Scan_Items := Some [item "a"] |})
            unavailable))
    = Resolved [record "a"].
Proof. split; vm_compute; reflexivity. Qed.

(** C9.  When the answer of the store to [scan] has no [Items], [scan]
    returns the empty list; when the answer of the store to [batchGet] has
    no [Responses], [batchGet] fails. *)
Theorem scan_without_items_is_empty this result :
  AWS.scan (client this) {| AWS.Scan_TableName := tableName this |}
  = Resolved result →
  AWS.Scan_Items result = None →
  scan this = Resolved []
  ∧ ∀ keys result',
      AWS.batchGetItem (client this) (batchGet_input this keys)
      = Resolved result' →
      AWS.Responses result' = None →
      batchGet this keys = Rejected (GenericError "TODO").
Proof.
  intros Hstore Hitems. split.
  - by rewrite (scan_resolved _ _ Hstore), Hitems.
  - intros keys result' Hstore' Hresponses.
    by rewrite (batchGet_resolved _ _ _ Hstore'), Hresponses.
Qed.

Lemma scan_without_items_is_empty_witness :
  AWS.scan
    (client (sample_client (HashKey "key")
               (store_answering (Resolved {| AWS.Responses := None |})
                  unavailable (Resolved {| AWS.Scan_Items := None |})
                  unavailable)))
    {| AWS.Scan_TableName := "table" |}
  = Resolved {| AWS.Scan_Items := None |}
  ∧ scan (sample_client (HashKey "key")
            (store_answering (Resolved {| AWS.Responses := None |})
               unavailable (Resolved {| AWS.Scan_Items := None |})
               unavailable))
    = Resolved []
  ∧ batchGet (sample_client (HashKey "key")
                (store_answering (Resolved {| AWS.Responses := None |})
                   unavailable (Resolved {| AWS.Scan_Items := None |})
                   unavailable))
      [VStr "a"]
    = Rejected (GenericError "TODO").
Proof.
  split; [reflexivity |].
  destruct (scan_without_items_is_empty
              (sample_client (HashKey "key")
                 (store_answering (Resolved {| AWS.Responses := None |})
                    unavailable (Resolved {| AWS.Scan_Items := None |})
                    unavailable))
              {| AWS.Scan_Items := None |} eq_refl eq_refl) as [Hscan Hget].
  split; [exact Hscan |].
  exact (Hget [VStr "a"] {| AWS.Responses := None |} eq_refl eq_refl).
Defined.

(** C2.  On the code, [query] compiles no key condition.  The constructor
    assigns neither [this.hashKeyMapper] nor [this.hashKeyName], so on every
    client it builds, a [query] with a filter throws a [TypeError] where it
    reads [this.hashKeyMapper.write], before the key condition is compiled,
    for every condition and every filter: there are no two compiled
    expressions whose placeholders could differ. *)
Theorem query_throws_before_key_condition type key config condition node
    start (σ : Heap) :
  (∃ σ',
     query_compile (constructor type key config) condition
       {| exclusiveStartKey := start; filter := Some node |} σ
     = (Rejected (TypeError "Cannot read property 'write' of undefined"), σ'))
  ∧ ∃ σ',
      query (constructor type key config) condition
        {| exclusiveStartKey := start; filter := Some node |} σ
      = (Rejected (TypeError "Cannot read property 'write' of undefined"), σ').
Proof.
  split.
  - unfold query_compile, member. simpl.
    destruct condition; repeat exec_step; by eexists.
  - unfold query, query_input, query_compile, member. simpl.
    destruct condition; repeat exec_step; by eexists.
Qed.

(** C10.  On the code, [query] submits no request.  On every client the
    constructor builds, the request is never built: [query] throws the
    [TypeError] before it, with or without a filter, and so rejects whatever
    the store would answer. *)
Theorem query_submits_no_request type key config condition props (σ : Heap) :
  (∃ σ',
     query_input (constructor type key config) condition props σ
     = (Rejected (TypeError "Cannot read property 'write' of undefined"), σ'))
  ∧ (∀ input σ',
       query_input (constructor type key config) condition props σ
       ≠ (Resolved input, σ'))
  ∧ ∃ σ',
      query (constructor type key config) condition props σ
      = (Rejected (TypeError "Cannot read property 'write' of undefined"), σ').
Proof.
  assert (∃ σ',
            query_input (constructor type key config) condition props σ
            = (Rejected
                 (TypeError "Cannot read property 'write' of undefined"), σ'))
    as [σ1 Hinput].
  { unfold query_input, query_compile, member. simpl.
    destruct (filter props) as [node|], condition;
      repeat exec_step; by eexists. }
  split; [by exists σ1 |]. split.
  - intros input σ'. rewrite Hinput. discriminate.
  - exists σ1. unfold query. unfold andThen at 1. by rewrite Hinput.
Qed.

(** ** The placeholders of [query], once the hash key fields are assigned *)

(** With the fields [hashKeyMapper] and [hashKeyName] assigned, [query]
    compiles the filter and the key condition with two writers
    on one namespace, so the two compiled expressions share no name
    placeholder and no value placeholder.  For a key condition on the hash
    key [k] and a filter that compares the field [k], the filter gets the
    placeholders [#n0] and [:v0] and the key condition [#n1] and [:v1], both
    name placeholders standing for [k]. *)
Theorem query_filter_shares_namespace this m k condition node props (σ : Heap) :
  hashKeyMapper this = Some m →
  hashKeyName this = Some k →
  filter props = Some node →
  ∃ queryExpr filterExpr σ',
    query_compile this condition props σ
    = (Resolved (queryExpr, Some filterExpr), σ')
    ∧ dom (Expression_AttributeNames queryExpr)
        ## dom (Expression_AttributeNames filterExpr)
    ∧ dom (Expression_AttributeValues queryExpr)
        ## dom (Expression_AttributeValues filterExpr)
    ∧ ∀ v operator literal,
        condition = HashKeyValue v →
        node = Comparison k operator literal →
        Expression_AttributeNames filterExpr = {[ "#n0" := k ]}
        ∧ Expression_AttributeNames queryExpr = {[ "#n1" := k ]}
        ∧ Expression_AttributeValues filterExpr = {[ ":v0" := literal ]}
        ∧ Expression_AttributeValues queryExpr = {[ ":v1" := write m v ]}
        ∧ Expression_ filterExpr
          = "#n0" +:+ (" " +:+ operator +:+ " ") +:+ ":v0"
        ∧ Expression_ queryExpr = "#n1 = :v1".
Proof.
  intros Hm Hk Hfilter.
  pose proof (query_compile_resolved this m k condition props σ Hm Hk) as Hc.
  simpl in Hc. unfold compile_filter in Hc. rewrite Hfilter in Hc.
  simpl in Hc.
  eexists _, _, _. split; [exact Hc |].
  destruct (query_compile_apart _ _ _ _ _ _ _ Hc) as [Hnames Hvalues].
  split; [exact Hnames |]. split; [exact Hvalues |].
  intros v operator literal -> ->. unfold key_condition_node, equals.
  rewrite synthesize_comparison_new. cbn [fst snd].
  rewrite synthesize_comparison_new. simpl.
  rewrite !insert_empty. done.
Qed.

Lemma query_filter_shares_namespace_witness :
  hashKeyMapper keyed_client = Some string_mapper
  ∧ hashKeyName keyed_client = Some "pk"
  ∧ ∃ σ',
      query_compile keyed_client (HashKeyValue (VStr "a"))
        {| exclusiveStartKey := None;
           filter := Some (Comparison "pk" "<>" (VObj {[ "S" := VStr "b" ]})) |}
        ∅
      = (Resolved
           ({| Expression_ := "#n1 = :v1";
               Expression_AttributeNames := {[ "#n1" := "pk" ]};
               Expression_AttributeValues :=
                 {[ ":v1" := VObj {[ "S" := VStr "a" ]} ]} |},
            Some {| Expression_ := "#n0 <> :v0";
                    Expression_AttributeNames := {[ "#n0" := "pk" ]};
                    Expression_AttributeValues :=
                      {[ ":v0" := VObj {[ "S" := VStr "b" ]} ]} |}),
         σ').
Proof.
  split; [reflexivity |]. split; [reflexivity |].
  destruct (query_filter_shares_namespace keyed_client string_mapper "pk"
              (HashKeyValue (VStr "a"))
              (Comparison "pk" "<>" (VObj {[ "S" := VStr "b" ]}))
              {| exclusiveStartKey := None;
                 filter :=
                   Some (Comparison "pk" "<>" (VObj {[ "S" := VStr "b" ]})) |}
              ∅ eq_refl eq_refl eq_refl)
    as (queryExpr & filterExpr & σ' & Hc & _ & _ & Hsame).
  destruct (Hsame _ _ _ eq_refl eq_refl) as (H1 & H2 & H3 & H4 & H5 & H6).
  exists σ'. rewrite Hc.
  destruct queryExpr, filterExpr. simpl in *. subst. reflexivity.
Defined.

(** A request that [query] builds (it builds one only with the two fields
    assigned) takes its placeholder maps from
    the compiled key condition only: the name and value placeholders of a
    compiled filter are not in the maps of the request, while the expression
    string of the filter, which refers to them, is its [FilterExpression]. *)
Theorem query_request_omits_filter_placeholders this condition props
    (σ σ' : Heap) input :
  query_input this condition props σ = (Resolved input, σ') →
  ∃ queryExpr filterExpr,
    query_compile this condition props σ
    = (Resolved (queryExpr, filterExpr), σ')
    ∧ AWS.KeyConditionExpression input = Expression_ queryExpr
    ∧ AWS.ExpressionAttributeNames input = Expression_AttributeNames queryExpr
    ∧ AWS.ExpressionAttributeValues input
      = Expression_AttributeValues queryExpr
    ∧ AWS.FilterExpression input = Expression_ <$> filterExpr
    ∧ (is_Some filterExpr ↔ is_Some (filter props))
    ∧ (∀ compiled, filterExpr = Some compiled →
         (∀ ph, ph ∈ dom (Expression_AttributeNames compiled) →
                AWS.ExpressionAttributeNames input !! ph = None)
         ∧ (∀ ph, ph ∈ dom (Expression_AttributeValues compiled) →
                  AWS.ExpressionAttributeValues input !! ph = None))
    ∧ query this condition props σ
      = (await (AWS.query (client this) input)
           (λ result,
              Resolved
                {| Items :=
                     List.map (λ v, read (mapper this) (M_ (VObj v)))
                       <$> AWS.Items result;
                   LastEvaluatedKey :=
                     readKey this <$> AWS.LastEvaluatedKey result |}),
         σ').
Proof.
  intros Hinput.
  assert (query this condition props σ
          = andThen (settle (AWS.query (client this) input))
              (λ result,
                 pure
                   {| Items :=
                        List.map (λ v, read (mapper this) (M_ (VObj v)))
                          <$> AWS.Items result;
                      LastEvaluatedKey :=
                        readKey this <$> AWS.LastEvaluatedKey result |}) σ')
    as Hquery.
  { unfold query. unfold andThen at 1. by rewrite Hinput. }
  unfold query_input, andThen in Hinput.
  destruct (query_compile this condition props σ)
    as [[[queryExpr filterExpr] | e] σ1] eqn:Hc; [| discriminate].
  injection Hinput as <- <-.
  exists queryExpr, filterExpr. simpl.
  split; [done |]. split; [done |]. split; [done |]. split; [done |].
  split; [done |]. split; [| split].
  - destruct (query_compile_resolved_inv _ _ _ _ _ _ Hc) as (m & k & Hm & Hk).
    rewrite (query_compile_resolved this m k) in Hc by done.
    injection Hc as _ Hf _. rewrite <- Hf. unfold compile_filter.
    destruct (filter props); simpl; split; intros [? ?]; eauto; discriminate.
  - intros compiled ->.
    destruct (query_compile_apart _ _ _ _ _ _ _ Hc) as [Hnames Hvalues].
    split; intros ph Hph; apply not_elem_of_dom; intros Hph'.
    + by apply (Hnames ph).
    + by apply (Hvalues ph).
  - rewrite Hquery. unfold andThen, settle, pure, await.
    by destruct (AWS.query (client this) _).
Qed.

Lemma query_request_omits_filter_placeholders_witness :
  ∃ input σ',
    query_input keyed_client (HashKeyValue (VStr "a"))
      {| exclusiveStartKey := None;
         filter := Some (Comparison "pk" "<>" (VObj {[ "S" := VStr "b" ]})) |}
      ∅
    = (Resolved input, σ')
    ∧ AWS.FilterExpression input = Some "#n0 <> :v0"
    ∧ AWS.ExpressionAttributeNames input = {[ "#n1" := "pk" ]}
    ∧ AWS.ExpressionAttributeNames input !! "#n0" = None
    ∧ AWS.ExpressionAttributeValues input !! ":v0" = None.
Proof.
  eexists _, _. split; [vm_compute; reflexivity |].
  split; [vm_compute; reflexivity |]. split; [vm_compute; reflexivity |].
  match goal with
  | |- ?names !! _ = None ∧ ?values !! _ = None =>
      destruct (query_request_omits_filter_placeholders keyed_client
                  (HashKeyValue (VStr "a"))
                  {| exclusiveStartKey := None;
                     filter :=
                       Some (Comparison "pk" "<>"
                               (VObj {[ "S" := VStr "b" ]})) |}
                  ∅ _ _ eq_refl)
        as (queryExpr & filterExpr & Hc & _ & _ & _ & _ & _ & Habsent & _)
  end.
  vm_compute in Hc. injection Hc as <- <-.
  destruct (Habsent _ eq_refl) as [Hnames Hvalues].
  split; [apply Hnames | apply Hvalues]; apply elem_of_dom; by eexists.
Defined.

End DynamoDBFacts.


(* ===================================================================== *)
(** * Part V: further properties of the stage chain                       *)
(* ===================================================================== *)

Module ChainFacts.
Import Enumerable EnumerableSpec ChainSpec EnumerableFacts.

Section Chains.
Context {E Dependency Client T : Type}.

Implicit Types (steps rest pre : list (option Dependency
                                       * (T → option Client → list T)))
  (s : Enumerable E Client T) (σ : gmap loc (list Dependency))
  (cs : list Client) (event : E).

(** *** The dependency array of a chain *)

Lemma flatMaps_array steps s0 σ s σ' :
  dependencies s0 ∈ dom σ →
  flatMaps steps s0 σ = (s, σ') →
  σ' !!! dependencies s = declared steps ++ σ !!! dependencies s0
  ∧ dependencies s ∈ dom σ'.
Proof.
  intros Hs0. revert s σ'.
  induction steps as [|[d h] inner IH]; intros s σ' Hbuild; simpl in Hbuild.
  - injection Hbuild as <- <-. done.
  - unfold bind in Hbuild.
    destruct (flatMaps inner s0 σ) as [s1 σ1] eqn:Hinner.
    pose proof (IH s1 σ1 eq_refl) as [Harray Hdom].
    destruct d as [d|].
    + destruct (flatMap_Some s1 h d σ1) as (f & Heq & _).
      rewrite Heq in Hbuild. injection Hbuild as <- <-. simpl.
      rewrite lookup_total_insert_eq, Harray.
      split; [done |]. rewrite dom_insert.
      apply elem_of_union_l. by apply elem_of_singleton.
    + destruct (flatMap_None (Dependency:=Dependency) s1 h σ1)
        as (f & Heq & _).
      rewrite Heq in Hbuild. injection Hbuild as <- <-. done.
Qed.

Lemma declared_app pre rest :
  declared (pre ++ rest) = declared pre ++ declared rest.
Proof. unfold declared. apply omap_app. Qed.

Lemma offset_app_length pre rest :
  offset (pre ++ rest) (length pre) = length (declared pre).
Proof. unfold offset. by rewrite take_app_length. Qed.

(** The dependency of the call [j] is in the array at the index
    [offset steps j]. *)
Lemma declared_lookup_offset steps j d h :
  steps !! j = Some (Some d, h) →
  declared steps !! offset steps j = Some d.
Proof.
  intros Hj. unfold offset.
  replace (declared steps)
    with (declared (take j steps ++ (Some d, h) :: drop (S j) steps))
    by (by rewrite take_drop_middle).
  rewrite declared_app. rewrite lookup_app_r by lia.
  by rewrite Nat.sub_diag.
Qed.

(** *** Running a chain *)

Lemma run_flatMaps rest : ∀ pre steps s0 σ s σ' cs event,
  steps = pre ++ rest →
  dependencies s0 ∈ dom σ →
  flatMaps rest s0 σ = (s, σ') →
  run s event (Some (drop (length (declared pre)) cs))
  = drained steps (length pre) rest cs
      (λ k, run s0 event (Some (drop k cs))).
Proof.
  induction rest as [|[d h] inner IH];
    intros pre steps s0 σ s σ' cs event -> Hs0 Hbuild; simpl in Hbuild.
  - injection Hbuild as <- <-. simpl. by rewrite offset_app_length.
  - unfold bind in Hbuild.
    destruct (flatMaps inner s0 σ) as [s1 σ1] eqn:Hinner.
    destruct (flatMaps_array _ _ _ _ _ Hs0 Hinner) as [_ Hdom].
    destruct (run_flatMap s1 h d σ1 s σ' event
                (Some (drop (length (declared pre)) cs)) Hdom Hbuild)
      as [Hrun _].
    rewrite Hrun. simpl. rewrite offset_app_length.
    rewrite lookup_drop, Nat.add_0_r.
    f_equal. f_equal.
    specialize (IH (pre ++ [(d, h)]) (pre ++ (d, h) :: inner) s0 σ s1 σ1
                  cs event).
    rewrite length_app, Nat.add_1_r in IH. rewrite <- IH.
    + f_equal. f_equal. rewrite declared_app, length_app.
      destruct d as [d|]; simpl.
      * rewrite drop_drop. done.
      * by rewrite Nat.add_0_r.
    + by rewrite <- app_assoc.
    + done.
    + done.
Qed.

(** X1.  Along a chain [s0.flatMap(…)….flatMap(…)], the dependency array of
    the last stage holds the declared dependencies, the last declared first,
    before those of [s0]; [run] gives the handler of each call the client at
    the index where the dependency of the call is in that array, and gives
    [s0] the clients after those of all the calls. *)
Theorem chain_clients_follow_dependencies steps s0 σ s σ' cs event :
  dependencies s0 ∈ dom σ →
  flatMaps steps s0 σ = (s, σ') →
  σ' !!! dependencies s = declared steps ++ σ !!! dependencies s0
  ∧ run s event (Some cs)
    = drained steps 0 steps cs (λ k, run s0 event (Some (drop k cs)))
  ∧ ∀ j d h, steps !! j = Some (Some d, h) →
      (σ' !!! dependencies s) !! offset steps j = Some d.
Proof.
  intros Hs0 Hbuild.
  destruct (flatMaps_array _ _ _ _ _ Hs0 Hbuild) as [Harray _].
  split; [done |]. split.
  - exact (run_flatMaps steps [] steps s0 σ s σ' cs event eq_refl Hs0 Hbuild).
  - intros j d h Hj. rewrite Harray.
    apply lookup_app_l_Some. by eapply declared_lookup_offset.
Qed.

End Chains.

(** *** Batches of any size *)

Section Batches.
Context {E Client T : Type}.
Implicit Types (batch it : list T).

Lemma batched_handle_concat size batch it :
  concat (batched_handle size batch it) = batch ++ it.
Proof.
  revert batch. induction it as [|value it IH]; intros batch; simpl.
  - case_decide as Hlen; simpl.
    + by rewrite app_nil_r.
    + destruct batch; [done | simpl in Hlen; lia].
  - destruct size as [n|].
    + case_decide; simpl; rewrite IH; by rewrite <- app_assoc.
    + rewrite IH. by rewrite <- app_assoc.
Qed.

Lemma batched_handle_nonempty size batch it :
  Forall (λ g, g ≠ []) (batched_handle size batch it).
Proof.
  revert batch. induction it as [|value it IH]; intros batch; simpl.
  - case_decide as Hlen; [| done].
    apply Forall_cons. split; [| done]. intros ->. simpl in Hlen. lia.
  - destruct size as [n|]; [| apply IH].
    case_decide; [| apply IH].
    apply Forall_cons. split; [| apply IH]. by destruct batch.
Qed.

Lemma batched_handle_length n batch it :
  0 < n → Z.of_nat (length batch) < n →
  Z.of_nat (length (batched_handle (Some n) batch it))
  = (Z.of_nat (length batch) + Z.of_nat (length it) + n - 1) / n.
Proof.
  intros Hn. revert batch.
  induction it as [|value it IH]; intros batch Hbatch.
  - simpl. case_decide as Hlen; simpl.
    + apply Z.div_unique_pos with (r := Z.of_nat (length batch) - 1); lia.
    + assert (length batch = 0%nat) as -> by lia.
      symmetry. apply Z.div_small. lia.
  - cbn [batched_handle]. rewrite length_app. cbn [length].
    case_decide as Hfull.
    + destruct Hfull as [_ Hfull]. cbn [length].
      rewrite Nat2Z.inj_succ, IH by (simpl; lia). simpl length.
      replace (Z.of_nat (length batch) + Z.of_nat (S (length it)) + n - 1)
        with (Z.of_nat 0 + Z.of_nat (length it) + n - 1 + 1 * n) by lia.
      rewrite Z.div_add by lia. lia.
    + rewrite IH by (rewrite length_app; simpl; lia).
      rewrite length_app. simpl length. f_equal. lia.
Qed.

(** X2.  A size of zero and a negative size are no size: [batched] then
    yields all the values in one group, and nothing when there is no
    value. *)
Theorem batched_nonpositive_size (s : Enumerable E Client T) event deps n :
  n ≤ 0 →
  run (batched s (Some n)) event deps
  = match run s event deps with [] => [] | _ => [run s event deps] end
  ∧ run (batched s (Some n)) event deps = run (batched s None) event deps.
Proof.
  intros Hn. rewrite !run_batched.
  rewrite !batched_handle_unset; [done | by left | right; eauto].
Qed.

(** X3.  For a size [n > 0], [batched(n)] yields [⌈len / n⌉] groups for
    [len] upstream values. *)
Theorem batched_group_count (s : Enumerable E Client T) event deps n :
  0 < n →
  Z.of_nat (length (run (batched s (Some n)) event deps))
  = (Z.of_nat (length (run s event deps)) + n - 1) / n.
Proof.
  intros Hn. rewrite run_batched, batched_handle_length by (simpl; lia).
  simpl. f_equal.
Qed.

(** X4.  Whatever the size, [batched] loses, repeats and reorders nothing
    and yields no empty group: the groups put end to end are the upstream
    values, so a [flatMap] that yields the values of each group undoes
    it. *)
Theorem batched_then_flattened {Dependency} (s : Enumerable E Client T)
    size (σ : gmap loc (list Dependency)) event deps :
  concat (run (batched s size) event deps) = run s event deps
  ∧ Forall (λ g, g ≠ []) (run (batched s size) event deps)
  ∧ run (flatMap (batched s size) None (λ group _, group) σ).1 event deps
    = run s event deps.
Proof.
  split; [| split].
  - by rewrite run_batched, batched_handle_concat.
  - rewrite run_batched. apply batched_handle_nonempty.
  - destruct (flatMap_None (Dependency:=Dependency) (batched s size)
                (λ group _, group) σ) as (f & -> & Hf).
    cbn [fst]. cbn [run]. rewrite decide_True by done.
    rewrite Hf, map_id.
    change (concat (run (batched s size) event deps) = run s event deps).
    by rewrite run_batched, batched_handle_concat.
Qed.

End Batches.

End ChainFacts.

(** ** Further properties of the terminal operations *)

Module TerminalFacts.
Import Enumerable JS Terminal EnumerableSpec ChainSpec EnumerableFacts
  ChainFacts.

Section Terminal.
Context {E Dependency Client T : Type}.

Implicit Types (s this : Enumerable E Client T)
  (σ : gmap loc (list Dependency)) (cs : list Client) (event : E).

(** X5.  For the function that [forEach] spawns on a chain
    [s0.flatMap(…)….flatMap(…)], the list of dependencies and the clients
    agree index by index: the dependency of [forEach], if any, is first and
    its handler gets the client at index 0, and the stages get the clients
    after it as [run] hands them down; with no dependency the handler gets
    [undefined].  With a dependency and an [undefined] client list, the
    function throws before any call. *)
Theorem forEach_clients_follow_dependencies
    (steps : list (option Dependency * (T → option Client → list T)))
    (s0 : Enumerable E Client T) σ s σ' (d : Dependency) (c : Client) cs event :
  dependencies s0 ∈ dom σ →
  flatMaps steps s0 σ = (s, σ') →
  (forEach_depends s (Some d) σ'
   = d :: declared steps ++ σ !!! dependencies s0
   ∧ forEach_handle s (Some d) event (Some (c :: cs))
     = Resolved
         (List.map (λ v, (v, Some c))
            (drained steps 0 steps cs
               (λ k, run s0 event (Some (drop k cs))))))
  ∧ (forEach_depends s None σ' = declared steps ++ σ !!! dependencies s0
     ∧ forEach_handle (Dependency:=Dependency) s None event (Some cs)
       = Resolved
           (List.map (λ v, (v, None))
              (drained steps 0 steps cs
                 (λ k, run s0 event (Some (drop k cs))))))
  ∧ forEach_handle s (Some d) event None
    = Rejected (TypeError "Cannot read property 'slice' of undefined").
Proof.
  intros Hs0 Hbuild.
  destruct (flatMaps_array _ _ _ _ _ Hs0 Hbuild) as [Harray _].
  pose proof (run_flatMaps steps [] steps s0 σ s σ' cs event
                eq_refl Hs0 Hbuild) as Hrun.
  simpl in Hrun. rewrite drop_0 in Hrun.
  unfold forEach_depends, forEach_handle. rewrite Harray.
  change (drop 1 (c :: cs)) with cs. rewrite Hrun.
  split; [by split |]. split; [by split | done].
Qed.

(** X6.  The handler of [forBatch] is called once, with all the values that
    the chain yields, in order, and is not called when the chain yields
    none. *)
Theorem forBatch_calls_once this (d : Dependency) event
    (deps : Clients Client) cs :
  forBatch_handle (Dependency:=Dependency) this None event deps
  = Resolved
      match run this event deps with
      | [] => []
      | _ => [(run this event deps, None)]
      end
  ∧ forBatch_handle this (Some d) event (Some cs)
    = Resolved
        match run this event (Some (drop 1 cs)) with
        | [] => []
        | _ => [(run this event (Some (drop 1 cs)), cs !! 0%nat)]
        end.
Proof.
  unfold forBatch_handle, forEach_handle.
  rewrite !run_batched, !batched_handle_unset by by left.
  split.
  - by destruct (run this event deps).
  - by destruct (run this event (Some (drop 1 cs))).
Qed.

(** X7.  The function of [toSink] sends the sink one batch, all the values
    that the chain yields, and sends nothing (no empty batch) when the chain
    yields none; the sink is the client at index 0 and the chain gets the
    clients after it.  With an empty client list it throws when there are
    values to send, and with an [undefined] client list it throws at
    once. *)
Theorem toSink_sends_one_batch this (sink : Dependency) (c : Client) cs event :
  toSink_handle this sink event (Some (c :: cs))
  = Resolved
      match run this event (Some cs) with
      | [] => []
      | _ => [(c, run this event (Some cs))]
      end
  ∧ toSink_handle this sink event (Some [])
    = match run this event (Some []) with
      | [] => Resolved []
      | _ => Rejected (TypeError "Cannot read property 'sink' of undefined")
      end
  ∧ toSink_handle this sink event None
    = Rejected (TypeError "Cannot read property 'slice' of undefined").
Proof.
  unfold toSink_handle.
  destruct (forBatch_calls_once this sink event None (c :: cs)) as [_ ->].
  destruct (forBatch_calls_once this sink event None []) as [_ ->].
  change (drop 1 (c :: cs)) with cs.
  change (drop 1 (@nil Client)) with (@nil Client).
  split; [| split].
  - by destruct (run this event (Some cs)).
  - by destruct (run this event (Some [])).
  - done.
Qed.

End Terminal.

(** *** On the sample chain *)

Lemma chain_clients_follow_dependencies_witness :
  dependencies sample_s0 ∈ dom sample_store
  ∧ ∃ s σ',
      flatMaps [(Some "D2", sample_h2); (None, sample_h2); (Some "D1", sample_h1)]
        sample_s0 sample_store = (s, σ')
      ∧ σ' !!! dependencies s = ["D2"; "D1"]
      ∧ run s () (Some ["c2"; "c1"]) = [3; 3; 4; 4; 5; 5; 6; 6; 7; 7]%nat.
Proof.
  assert (dependencies sample_s0 ∈ dom sample_store) as Hs.
  { apply elem_of_dom. by eexists. }
  split; [exact Hs |].
  eexists _, _. split; [reflexivity |].
  destruct (chain_clients_follow_dependencies
              [(Some "D2", sample_h2); (None, sample_h2);
               (Some "D1", sample_h1)]
              sample_s0 sample_store _ _ ["c2"; "c1"] () Hs eq_refl)
    as (Harray & Hrun & _).
  split; [exact Harray | exact Hrun].
Defined.

Lemma forEach_clients_follow_dependencies_witness :
  dependencies sample_s0 ∈ dom sample_store
  ∧ ∃ s σ',
      flatMaps [(Some "D1", sample_h1)] sample_s0 sample_store = (s, σ')
      ∧ forEach_depends s (Some "D") σ' = ["D"; "D1"]
      ∧ forEach_handle s (Some "D") () (Some ["c"; "c1"])
        = Resolved (List.map (λ v, (v, Some "c"))
                      [1; 1; 2; 2; 3; 3; 4; 4; 5; 5]%nat).
Proof.
  assert (dependencies sample_s0 ∈ dom sample_store) as Hs.
  { apply elem_of_dom. by eexists. }
  split; [exact Hs |].
  eexists _, _. split; [reflexivity |].
  destruct (forEach_clients_follow_dependencies [(Some "D1", sample_h1)]
              sample_s0 sample_store _ _ "D" "c" ["c1"] () Hs eq_refl)
    as ((Hdeps & Hcalls) & _).
  split; [exact Hdeps | exact Hcalls].
Defined.

Lemma batched_nonpositive_size_witness :
  -1 ≤ 0
  ∧ run (batched sample_s0 (Some (-1))) () None = [[1; 2; 3; 4; 5]%nat].
Proof.
  assert (-1 ≤ 0) as Hn by lia.
  split; [exact Hn |].
  destruct (batched_nonpositive_size sample_s0 () None (-1) Hn) as [H _].
  exact H.
Defined.

Lemma batched_group_count_witness :
  0 < 2
  ∧ Z.of_nat (length (run (batched sample_s0 (Some 2)) () None)) = 3.
Proof.
  assert (0 < 2) as Hn by lia.
  split; [exact Hn |].
  exact (batched_group_count sample_s0 () None 2 Hn).
Defined.

End TerminalFacts.

(* ===================================================================== *)
(** * Part VI: further properties of the DynamoDB client                  *)
(* ===================================================================== *)

Module ItemsFacts.
Import JS DynamoDB DynamoDBSpec DynamoDBFacts Items StreamProcessing ItemsSpec.

(** X8.  [get] returns the record that [put] wrote: when the codec of the
    record writes a map and reads back what it wrote, and the store answers
    [getItem] with the item of the request of [put], [get] resolves with the
    record. *)
Theorem get_returns_what_put_wrote this ops key r (o : Object) :
  write (mapper this) r = M_ (VObj o) →
  read (mapper this) (write (mapper this) r) = r →
  getItem ops (get_input this key)
  = Resolved {| GetItem_Item := Some o |} →
  PutItem_Item (put_input this r) = VObj o
  ∧ get this ops key = Resolved r.
Proof.
  intros Hwrite Hread Hstore. split.
  - simpl. rewrite Hwrite. unfold M_. simpl. apply prop_singleton.
  - unfold get. rewrite Hstore. simpl. by rewrite <- Hwrite, Hread.
Qed.

(** X9.  [scan] returns the records that [batchPut] wrote, in order: when
    the codec writes a map for each record and reads back what it wrote, and
    the store answers [scan] with the items of the put requests of
    [batchPut]. *)
Theorem scan_returns_what_batchPut_wrote this batch (items : list Object) :
  Forall2 (λ r o, write (mapper this) r = M_ (VObj o)
                  ∧ read (mapper this) (write (mapper this) r) = r)
    batch items →
  AWS.scan (client this) {| AWS.Scan_TableName := tableName this |}
  = Resolved {| AWS.Scan_Items := Some items |} →
  AWS.BatchWriteItem_RequestItems (batchPut_input this batch)
    !! tableName this
  = Some (List.map
            (λ o, {| AWS.PutRequest_ := {| AWS.Item := VObj o |} |}) items)
  ∧ scan this = Resolved batch.
Proof.
  intros Hall Hstore. split.
  - rewrite batchPut_input_requests. f_equal. clear Hstore.
    induction Hall as [|r o batch items [Hwrite _] _ IH]; simpl; [done |].
    rewrite IH, Hwrite. unfold M_. simpl. by rewrite prop_singleton.
  - rewrite (scan_resolved _ _ Hstore). simpl. f_equal. clear Hstore.
    induction Hall as [|r o batch items [Hwrite Hread] _ IH]; simpl; [done |].
    by rewrite IH, <- Hwrite, Hread.
Qed.

(** X10.  A key that [readKey] returned does not survive [writeKey]: on a
    client with a hash key and a sort key, [writeKey (readKey k)] is the same
    for every key object [k], the two key fields written from [undefined].
    [readKey] returns an object with a property for each key field, and
    [writeKey] reads the properties ["0"] and ["1"] of it, which it has not
    when no key field has one of these names. *)
Theorem writeKey_readKey_forgets_key type hk sk config (k : Object) :
  hk ≠ "0" → hk ≠ "1" → sk ≠ "0" → sk ≠ "1" →
  writeKey (constructor type (SortKey hk sk) config)
    (readKey (constructor type (SortKey hk sk) config) (VObj k))
  = VObj (<[ sk := write (Members_mapper type sk) VUndefined ]>
            {[ hk := write (Members_mapper type hk) VUndefined ]}).
Proof.
  intros Hhk0 Hhk1 Hsk0 Hsk1.
  assert (pretty 0%nat = "0") as H0 by reflexivity.
  assert (pretty 1%nat = "1") as H1 by reflexivity.
  cbn [writeKey readKey constructor index]. rewrite H0, H1.
  unfold prop.
  rewrite !lookup_insert_ne, !lookup_singleton_ne by done.
  reflexivity.
Qed.

(** A key field named ["0"] is read back by [writeKey]: the hypotheses on
    the names are needed. *)
Example writeKey_readKey_field_named_0 :
  writeKey (sample_client (SortKey "0" "sk") quiet_store)
    (readKey (sample_client (SortKey "0" "sk") quiet_store)
       (VObj {[ "0" := VObj {[ "S" := VStr "a" ]};
                "sk" := VObj {[ "S" := VStr "b" ]} ]}))
  = VObj {[ "0" := VObj {[ "S" := VStr "a" ]};
            "sk" := VObj {[ "S" := VUndefined ]} ]}.
Proof. vm_compute. reflexivity. Qed.

(** X11.  The enrichment step of the example: a message whose key has no
    item in the table gets the empty list of tags; a message whose key has
    one gets the tags of the decoded record; in both cases the timestamp is
    the current date and the other fields of the message are kept. *)
Theorem enrich_tags e ops now (message : Object) answer :
  getItem ops (get_input e (prop message "key")) = Resolved answer →
  ∃ out,
    enrich e ops now message = Resolved (VObj out)
    ∧ out !! "timestamp" = Some now
    ∧ (∀ k, k ≠ "tags" → k ≠ "timestamp" → out !! k = message !! k)
    ∧ (GetItem_Item answer = None → out !! "tags" = Some (VArr []))
    ∧ (∀ item record,
         GetItem_Item answer = Some item →
         read (mapper e) (M_ (VObj item)) = VObj record →
         out !! "tags" = Some (prop record "tags")).
Proof.
  intros Hstore. unfold enrich, Items.get. rewrite Hstore. simpl.
  destruct (GetItem_Item answer) as [item|]; simpl; eexists;
    (split; [reflexivity |]);
    (split; [by rewrite lookup_insert_eq |]);
    (split; [intros k Hk1 Hk2; by rewrite !lookup_insert_ne |]).
  - split; [discriminate |].
    intros item' record [= <-] Hrecord.
    rewrite lookup_insert_ne, lookup_insert_eq by done.
    by rewrite Hrecord.
  - split; [| discriminate].
    intros _. by rewrite lookup_insert_ne, lookup_insert_eq.
Qed.



(** *** On the sample table *)

Lemma get_returns_what_put_wrote_witness :
  PutItem_Item (put_input (sample_client (HashKey "key") quiet_store)
                  (record "a"))
  = VObj (item "a")
  ∧ get (sample_client (HashKey "key") quiet_store)
      (store_getting (Resolved {| GetItem_Item := Some (item "a") |}))
      (VStr "a")
    = Resolved (record "a").
Proof.
  apply (get_returns_what_put_wrote
           (sample_client (HashKey "key") quiet_store)
           (store_getting (Resolved {| GetItem_Item := Some (item "a") |}))
           (VStr "a") (record "a") (item "a"));
    vm_compute; reflexivity.
Defined.

Lemma scan_returns_what_batchPut_wrote_witness :
  scan (sample_client (HashKey "key")
          (store_answering unavailable unavailable
             (Resolved {| AWS.Scan_Items := Some [item "a"; item "b"] |})
             unavailable))
  = Resolved [record "a"; record "b"].
Proof.
  refine (proj2 (scan_returns_what_batchPut_wrote
                   (sample_client (HashKey "key")
                      (store_answering unavailable unavailable
                         (Resolved
                            {| AWS.Scan_Items := Some [item "a"; item "b"] |})
                         unavailable))
                   [record "a"; record "b"] [item "a"; item "b"] _ eq_refl)).
  constructor; [split; vm_compute; reflexivity |].
  constructor; [split; vm_compute; reflexivity |].
  constructor.
Defined.

Lemma writeKey_readKey_forgets_key_witness :
  readKey (sample_client (SortKey "pk" "sk") quiet_store) (VObj stored_key)
  = VObj {[ "pk" := VStr "a"; "sk" := VStr "b" ]}
  ∧ writeKey (sample_client (SortKey "pk" "sk") quiet_store)
      (readKey (sample_client (SortKey "pk" "sk") quiet_store)
         (VObj stored_key))
    = VObj {[ "pk" := VObj {[ "S" := VUndefined ]};
              "sk" := VObj {[ "S" := VUndefined ]} ]}.
Proof.
  split; [vm_compute; reflexivity |].
  assert ("pk" ≠ "0") as H1 by done. assert ("pk" ≠ "1") as H2 by done.
  assert ("sk" ≠ "0") as H3 by done. assert ("sk" ≠ "1") as H4 by done.
  exact (writeKey_readKey_forgets_key sample_type "pk" "sk"
           {| Props_tableName := "table"; Props_client := quiet_store |}
           stored_key H1 H2 H3 H4).
Defined.

Lemma enrich_tags_witness :
  ∃ out,
    enrich (sample_client (HashKey "key") quiet_store)
      (store_getting (Resolved {| GetItem_Item := Some tagged_item |}))
      (VNum 0) sample_message
    = Resolved (VObj out)
    ∧ out !! "tags" = Some (VStr "t")
    ∧ out !! "count" = Some (VNum 1).
Proof.
  destruct (enrich_tags (sample_client (HashKey "key") quiet_store)
              (store_getting (Resolved {| GetItem_Item := Some tagged_item |}))
              (VNum 0) sample_message {| GetItem_Item := Some tagged_item |}
              eq_refl)
    as (out & Hout & _ & Hkept & _ & Htags).
  exists out. split; [exact Hout |]. split.
  - exact (Htags tagged_item tagged_record eq_refl eq_refl).
  - rewrite Hkept by done. reflexivity.
Defined.


End ItemsFacts.
